(** * gst-alphamask: the alpha compositor and the stream synchronizer

    A shallow embedding of [src/gstalphamask.c].  The first part models the
    pixel routines ([copy_alpha_packed_u1], [_u4], [_u8], [copy_alpha_packed],
    [copy_alpha_planar]) over byte arrays; the second part models the two
    chain functions ([gst_alpha_mask_video_chain],
    [gst_alpha_mask_alpha_chain]) as state-passing functions over the fields
    of [GstAlphaMask] that they read and write. *)

From Stdlib Require Import ZArith NArith Lia Bool.
From Stdlib Require Strings.Byte.
From stdpp Require Import base option list.

Local Open Scope N_scope.

(** ** Bytes, machine integers and plane memory *)

Abbreviation byte := Byte.byte.

(** [guint] arithmetic is taken modulo 2^32. *)
Definition guint (x : N) : N := x mod 2 ^ 32.

(** Conversion of an integer to [guint8]: the value modulo 256. *)
Definition byte_of_N (n : N) : byte :=
  default Byte.x00 (Byte.of_N (n mod 256)).

(** A plane is the byte array that starts where a [data[i]] pointer of a
    mapped [GstVideoFrame] points and runs to the end of the mapped buffer.
    Pointers into it are offsets.  An access outside of the array is
    undefined behaviour in C and is [None] here. *)
Definition load (m : list byte) (a : N) : option byte := m !! N.to_nat a.

Definition store (m : list byte) (a : N) (v : byte) : option (list byte) :=
  if decide (N.to_nat a < length m)%nat
  then Some (<[N.to_nat a := v]> m)
  else None.

(** Reading a [guint32] or [guint64] through a cast pointer reads [n]
    consecutive bytes; which of them is the least significant one depends on
    the byte order of the host. *)
Inductive byte_order := LittleEndian | BigEndian.

Fixpoint load_bytes (n : nat) (m : list byte) (a : N) : option (list byte) :=
  match n with
  | O => Some []
  | S n' => b ← load m a; bs ← load_bytes n' m (N.succ a); Some (b :: bs)
  end.

Fixpoint le_combine (bs : list byte) : N :=
  match bs with
  | [] => 0
  | b :: bs' => Byte.to_N b + 256 * le_combine bs'
  end.

Definition load_word (bo : byte_order) (n : nat) (m : list byte) (a : N)
  : option N :=
  bs ← load_bytes n m a;
  Some (match bo with
        | LittleEndian => le_combine bs
        | BigEndian => le_combine (rev bs)
        end).

(** [for (j = j0; ...; j++) s = body (j, s)], run for [n] iterations. *)
Fixpoint for_loop {St : Type} (n : nat) (j : N) (body : N -> St -> option St)
  (s : St) : option St :=
  match n with
  | O => Some s
  | S n' => s' ← body j s; for_loop n' (N.succ j) body s'
  end.

(** ** The packed (interleaved, 4 bytes per pixel) compositor

    The three loops take the destination plane [dmem] with the pointer [dst]
    into it and the source plane [smem] with the pointer [src] into it.  The
    state of the outer loop is the pair of row pointers and the destination
    memory; [dst += dstride] and [src += sstride] are pointer arithmetic and
    do not wrap. *)

(** [dst[j * 4] = src[j]], where [j * 4] is computed in [guint]. *)
Definition packed_u1_pixel (smem : list byte) (dst src : N)
  (j : N) (m : list byte) : option (list byte) :=
  b ← load smem (src + j);
  store m (dst + guint (j * 4)) b.

Definition copy_alpha_packed_u1 (dmem : list byte) (dst dstride : N)
  (smem : list byte) (src sstride : N) (width height : N)
  : option (list byte) :=
  s ← for_loop (N.to_nat height) 0
        (fun _ '(dst, src, m) =>
           m' ← for_loop (N.to_nat width) 0 (packed_u1_pixel smem dst src) m;
           Some (dst + dstride, src + sstride, m'))
        (dst, src, dmem);
  Some (s.2).

(** [dd[k] = c & 0xff] *)
Definition put_low (m : list byte) (a : N) (c : N) : option (list byte) :=
  store m a (byte_of_N (N.land c 255)).

(** One iteration of the inner loop of [copy_alpha_packed_u4]; [sd[j]] is the
    [guint32] at byte offset [4 * j] from the row's source pointer. *)
Definition packed_u4_group (bo : byte_order) (smem : list byte) (src : N)
  (j : N) (s : N * list byte) : option (N * list byte) :=
  let '(dd, m) := s in
  c ← load_word bo 4 smem (src + 4 * j);
  m ← put_low m dd c;
  let c := N.shiftr c 8 in
  m ← put_low m (dd + 4) c;
  let c := N.shiftr c 8 in
  m ← put_low m (dd + 8) c;
  let c := N.shiftr c 8 in
  m ← put_low m (dd + 12) c;
  Some (dd + 16, m).

Definition copy_alpha_packed_u4 (bo : byte_order) (dmem : list byte)
  (dst dstride : N) (smem : list byte) (src sstride : N) (width height : N)
  : option (list byte) :=
  let w := N.shiftr width 2 in
  s ← for_loop (N.to_nat height) 0
        (fun _ '(dst, src, m) =>
           r ← for_loop (N.to_nat w) 0 (packed_u4_group bo smem src) (dst, m);
           Some (dst + dstride, src + sstride, r.2))
        (dst, src, dmem);
  Some (s.2).

(** One iteration of the inner loop of [copy_alpha_packed_u8]. *)
Definition packed_u8_group (bo : byte_order) (smem : list byte) (src : N)
  (j : N) (s : N * list byte) : option (N * list byte) :=
  let '(dd, m) := s in
  c ← load_word bo 8 smem (src + 8 * j);
  m ← put_low m dd c;
  let c := N.shiftr c 8 in
  m ← put_low m (dd + 4) c;
  let c := N.shiftr c 8 in
  m ← put_low m (dd + 8) c;
  let c := N.shiftr c 8 in
  m ← put_low m (dd + 12) c;
  let c := N.shiftr c 8 in
  m ← put_low m (dd + 16) c;
  let c := N.shiftr c 8 in
  m ← put_low m (dd + 20) c;
  let c := N.shiftr c 8 in
  m ← put_low m (dd + 24) c;
  let c := N.shiftr c 8 in
  m ← put_low m (dd + 28) c;
  Some (dd + 32, m).

Definition copy_alpha_packed_u8 (bo : byte_order) (dmem : list byte)
  (dst dstride : N) (smem : list byte) (src sstride : N) (width height : N)
  : option (list byte) :=
  let w := N.shiftr width 3 in
  s ← for_loop (N.to_nat height) 0
        (fun _ '(dst, src, m) =>
           r ← for_loop (N.to_nat w) 0 (packed_u8_group bo smem src) (dst, m);
           Some (dst + dstride, src + sstride, r.2))
        (dst, src, dmem);
  Some (s.2).

(** [copy_alpha_packed], after its locals are read from the two frames:
    [sp], [dp] are the planes at [aframe->data[0]] and [oframe->data[0]],
    [w], [h] the alpha component's size, [ss], [ds] the two plane strides. *)
Definition copy_alpha_packed (bo : byte_order) (dp : list byte) (ds : N)
  (sp : list byte) (ss : N) (w h : N) : option (list byte) :=
  if negb (N.land w 3 =? 0) then copy_alpha_packed_u1 dp 0 ds sp 0 ss w h
  else if negb (N.land w 7 =? 0) then copy_alpha_packed_u4 bo dp 0 ds sp 0 ss w h
  else copy_alpha_packed_u8 bo dp 0 ds sp 0 ss w h.

(** ** The planar compositor *)

(** [memcpy (dst, src, n)] between two distinct buffers. *)
Definition memcpy (dmem : list byte) (dst : N) (smem : list byte) (src n : N)
  : option (list byte) :=
  for_loop (N.to_nat n) 0
    (fun k m => b ← load smem (src + k); store m (dst + k) b) dmem.

(** The row loop of [copy_alpha_planar] (its [else] branch): [w] bytes per
    row, the two pointers advanced by their own strides. *)
Definition copy_rows (dp : list byte) (ds : N) (sp : list byte) (ss : N)
  (w h : N) : option (list byte) :=
  s ← for_loop (N.to_nat h) 0
        (fun _ '(d, s, m) =>
           m' ← memcpy m d sp s w;
           Some (d + ds, s + ss, m'))
        (0, 0, dp);
  Some (s.2).

(** [copy_alpha_planar], after its locals are read from the two frames; [dp]
    is the plane at [oframe->data[plane]].  [h * ss] is a [guint] product. *)
Definition copy_alpha_planar (dp : list byte) (ds : N) (sp : list byte)
  (ss : N) (w h : N) : option (list byte) :=
  if ss =? ds then memcpy dp 0 sp 0 (guint (h * ss))
  else copy_rows dp ds sp ss w h.

Definition bytes_of (l : list N) : list byte := map byte_of_N l.

(** The offsets of byte 0 of the pixels [0 .. w) of the rows [0 .. h) of
    an interleaved plane with 4 bytes per pixel whose first row is at [dst]
    and whose stride is [ds]. *)
Definition alpha_byte_offset (dst ds w h : N) (p : N) : Prop :=
  exists i j, i < h /\ j < w /\ p = dst + i * ds + 4 * j.

(** [m] is [m0] with some of the bytes at the offsets [W] overwritten. *)
Definition writes_within (W : N -> Prop) (m0 m : list byte) : Prop :=
  length m = length m0 /\ forall p, ~ W p -> load m p = load m0 p.

(** The state of the outer loop of a packed compositor before row [i]. *)
Definition at_row (W : N -> Prop) (dst ds : N) (dmem : list byte)
  (i : N) (s : N * N * list byte) : Prop :=
  s.1.1 = dst + i * ds /\ writes_within W dmem s.2.

Local Close Scope N_scope.
Local Open Scope Z_scope.

(** ** Time stamps, buffers and segments *)

(** [GstClockTime] is a [guint64]; [GST_CLOCK_TIME_NONE] is
    [(GstClockTime) -1]. *)
Definition guint64 (x : Z) : Z := x mod 2 ^ 64.
Definition GST_CLOCK_TIME_NONE : Z := 2 ^ 64 - 1.
Definition GST_CLOCK_TIME_IS_VALID (t : Z) : bool :=
  negb (t =? GST_CLOCK_TIME_NONE).
Definition GST_SECOND : Z := 1000000000.

Inductive GstFlowReturn :=
| GST_FLOW_OK
| GST_FLOW_NOT_LINKED
| GST_FLOW_FLUSHING
| GST_FLOW_EOS
| GST_FLOW_NOT_NEGOTIATED
| GST_FLOW_ERROR
| GST_FLOW_NOT_SUPPORTED.

Inductive GstFormat :=
| GST_FORMAT_UNDEFINED
| GST_FORMAT_DEFAULT
| GST_FORMAT_BYTES
| GST_FORMAT_TIME
| GST_FORMAT_BUFFERS
| GST_FORMAT_PERCENT.

Definition GstFormat_eqb (a b : GstFormat) : bool :=
  match a, b with
  | GST_FORMAT_UNDEFINED, GST_FORMAT_UNDEFINED
  | GST_FORMAT_DEFAULT, GST_FORMAT_DEFAULT
  | GST_FORMAT_BYTES, GST_FORMAT_BYTES
  | GST_FORMAT_TIME, GST_FORMAT_TIME
  | GST_FORMAT_BUFFERS, GST_FORMAT_BUFFERS
  | GST_FORMAT_PERCENT, GST_FORMAT_PERCENT => true
  | _, _ => false
  end.

(** The formats named by the pad templates, and the unknown format. *)
Inductive GstVideoFormat :=
| GST_VIDEO_FORMAT_UNKNOWN
| GST_VIDEO_FORMAT_AYUV | GST_VIDEO_FORMAT_A420 | GST_VIDEO_FORMAT_I420
| GST_VIDEO_FORMAT_YV12 | GST_VIDEO_FORMAT_NV12 | GST_VIDEO_FORMAT_NV21
| GST_VIDEO_FORMAT_BGRA | GST_VIDEO_FORMAT_ARGB | GST_VIDEO_FORMAT_RGBA
| GST_VIDEO_FORMAT_ABGR | GST_VIDEO_FORMAT_Y444 | GST_VIDEO_FORMAT_Y42B
| GST_VIDEO_FORMAT_YUY2 | GST_VIDEO_FORMAT_UYVY | GST_VIDEO_FORMAT_YVYU
| GST_VIDEO_FORMAT_Y41B | GST_VIDEO_FORMAT_RGB | GST_VIDEO_FORMAT_BGR
| GST_VIDEO_FORMAT_xRGB | GST_VIDEO_FORMAT_xBGR | GST_VIDEO_FORMAT_RGBx
| GST_VIDEO_FORMAT_BGRx | GST_VIDEO_FORMAT_GRAY8.

(** The fields of a [GstSegment] that a forward segment of rate 1.0 uses. *)
Record GstSegment := {
  seg_format : GstFormat;
  seg_base : Z;
  seg_offset : Z;
  seg_start : Z;
  seg_stop : Z;
  seg_position : Z
}.

Definition set_position (s : GstSegment) (p : Z) : GstSegment :=
  {| seg_format := seg_format s; seg_base := seg_base s;
     seg_offset := seg_offset s; seg_start := seg_start s;
     seg_stop := seg_stop s; seg_position := p |}.

(** [gst_segment_init (segment, format)]. *)
Definition gst_segment_init (f : GstFormat) : GstSegment :=
  {| seg_format := f; seg_base := 0; seg_offset := 0; seg_start := 0;
     seg_stop := GST_CLOCK_TIME_NONE; seg_position := 0 |}.

(** A [GstBuffer]: its two time stamps and its storage, which is opaque
    here and stands for the identity of the buffer. *)
Record GstBuffer := {
  GST_BUFFER_TIMESTAMP : Z;
  GST_BUFFER_DURATION : Z;
  buffer_memory : N
}.

Definition GST_BUFFER_TIMESTAMP_IS_VALID (b : GstBuffer) : bool :=
  GST_CLOCK_TIME_IS_VALID (GST_BUFFER_TIMESTAMP b).
Definition GST_BUFFER_DURATION_IS_VALID (b : GstBuffer) : bool :=
  GST_CLOCK_TIME_IS_VALID (GST_BUFFER_DURATION b).

Definition set_timestamp (b : GstBuffer) (t : Z) : GstBuffer :=
  {| GST_BUFFER_TIMESTAMP := t; GST_BUFFER_DURATION := GST_BUFFER_DURATION b;
     buffer_memory := buffer_memory b |}.
Definition set_duration (b : GstBuffer) (d : Z) : GstBuffer :=
  {| GST_BUFFER_TIMESTAMP := GST_BUFFER_TIMESTAMP b; GST_BUFFER_DURATION := d;
     buffer_memory := buffer_memory b |}.

(** What is pushed on the source pad: the video buffer as it came in, the
    video buffer with the memory of the alpha buffer appended, or the frame
    made by [gst_alpha_mask_convert], whose alpha channel is copied from the
    alpha buffer by [copy_alpha_planar] or [copy_alpha_packed] when there is
    one that maps. *)
Inductive OutBuffer :=
| Unmodified (video : GstBuffer)
| AlphaAppended (video alpha : GstBuffer)
| Converted (video : GstBuffer) (alpha : option GstBuffer).

(** The effects of a chain function that are visible outside of the
    element's own fields. *)
Inductive effect :=
| PadPush (o : OutBuffer)
| BufferUnref (b : GstBuffer).

Inductive frame_kind := InFrame | OutFrame | AlphaFrame.

(** The GStreamer functions that the chain functions call.
    [gst_segment_clip] is [None] when it returns [FALSE] and the pair
    [(clip_start, clip_stop)] otherwise; [gst_video_frame_map k b] tells
    whether the frame made for buffer [b] maps with the video info of kind
    [k]; [gst_pad_push] is the flow return of the downstream element. *)
Class GstCore := {
  gst_segment_clip : GstSegment -> GstFormat -> Z -> Z -> option (Z * Z);
  gst_segment_to_running_time : GstSegment -> GstFormat -> Z -> Z;
  gst_util_uint64_scale_int : Z -> Z -> Z -> Z;
  gst_video_frame_map : frame_kind -> GstBuffer -> bool;
  gst_pad_push : OutBuffer -> GstFlowReturn
}.

(** The fields of [GstAlphaMask] that the chain functions use; [fps_n] and
    [fps_d] are those of [iinfo].  [alpha_segment_done] is read and written
    by [gstalphamask.c]; the structure in [gstalphamask.h] does not list
    it. *)
Record GstAlphaMask := {
  segment : GstSegment;
  alpha_segment : GstSegment;
  alpha_buffer : option GstBuffer;
  video_flushing : bool;
  video_eos : bool;
  alpha_flushing : bool;
  alpha_eos : bool;
  alpha_segment_done : bool;
  fps_n : Z;
  fps_d : Z;
  iformat : GstVideoFormat;
  oformat : GstVideoFormat
}.

Definition set_alpha_buffer (t : GstAlphaMask) (a : option GstBuffer)
  : GstAlphaMask :=
  {| segment := segment t; alpha_segment := alpha_segment t;
     alpha_buffer := a;
     video_flushing := video_flushing t; video_eos := video_eos t;
     alpha_flushing := alpha_flushing t; alpha_eos := alpha_eos t;
     alpha_segment_done := alpha_segment_done t;
     fps_n := fps_n t; fps_d := fps_d t;
     iformat := iformat t; oformat := oformat t |}.

Definition set_segment (t : GstAlphaMask) (s : GstSegment) : GstAlphaMask :=
  {| segment := s; alpha_segment := alpha_segment t;
     alpha_buffer := alpha_buffer t;
     video_flushing := video_flushing t; video_eos := video_eos t;
     alpha_flushing := alpha_flushing t; alpha_eos := alpha_eos t;
     alpha_segment_done := alpha_segment_done t;
     fps_n := fps_n t; fps_d := fps_d t;
     iformat := iformat t; oformat := oformat t |}.

Definition set_alpha_segment (t : GstAlphaMask) (s : GstSegment)
  : GstAlphaMask :=
  {| segment := segment t; alpha_segment := s;
     alpha_buffer := alpha_buffer t;
     video_flushing := video_flushing t; video_eos := video_eos t;
     alpha_flushing := alpha_flushing t; alpha_eos := alpha_eos t;
     alpha_segment_done := alpha_segment_done t;
     fps_n := fps_n t; fps_d := fps_d t;
     iformat := iformat t; oformat := oformat t |}.

(** What the other streaming thread and the event handlers do to the element
    while this thread does not hold the lock. *)
Definition interference := GstAlphaMask -> GstAlphaMask.

(** ** The chain functions *)

Section Chains.
Context `{GstCore}.

(** [gst_alpha_mask_convert]: [None] is the [NULL] of the two error exits. *)
Definition gst_alpha_mask_convert (thiz : GstAlphaMask) (ibuf : GstBuffer)
  : option OutBuffer :=
  if negb (gst_video_frame_map InFrame ibuf) then None
  else if negb (gst_video_frame_map OutFrame ibuf) then None
  else
    match alpha_buffer thiz with
    | None => Some (Converted ibuf None)
    | Some a =>
        if negb (gst_video_frame_map AlphaFrame a)
        then Some (Converted ibuf None)
        else Some (Converted ibuf (Some a))
    end.

(** [gst_alpha_mask_push_frame]: the buffers pushed and the flow return.
    With no alpha buffer the first branch reads through a null pointer; it
    produces nothing here. *)
Definition gst_alpha_mask_push_frame (thiz : GstAlphaMask)
  (ibuffer : GstBuffer) : list effect * GstFlowReturn :=
  let obuffer :=
    match oformat thiz with
    | GST_VIDEO_FORMAT_A420 =>
        match iformat thiz with
        | GST_VIDEO_FORMAT_GRAY8 =>
            match alpha_buffer thiz with
            | Some a => Some (AlphaAppended ibuffer a)
            | None => None
            end
        | _ => gst_alpha_mask_convert thiz ibuffer
        end
    | GST_VIDEO_FORMAT_ARGB
    | GST_VIDEO_FORMAT_AYUV => gst_alpha_mask_convert thiz ibuffer
    | _ => None
    end in
  match obuffer with
  | Some o => ([PadPush o], gst_pad_push o)
  | None => ([], GST_FLOW_OK)
  end.

(** [gst_alpha_mask_pop_alpha], called with the lock held. *)
Definition gst_alpha_mask_pop_alpha (thiz : GstAlphaMask)
  : list effect * GstAlphaMask :=
  match alpha_buffer thiz with
  | Some a => ([BufferUnref a], set_alpha_buffer thiz None)
  | None => ([], thiz)
  end.

(** The locals of the branch of [gst_alpha_mask_video_chain] that finds an
    alpha buffer [a] queued. *)
Definition valid_alpha_time (a : GstBuffer) : bool :=
  GST_BUFFER_TIMESTAMP_IS_VALID a && GST_BUFFER_DURATION_IS_VALID a.

Definition alpha_start (a : GstBuffer) : Z :=
  if valid_alpha_time a then GST_BUFFER_TIMESTAMP a else GST_CLOCK_TIME_NONE.

Definition alpha_end (a : GstBuffer) : Z :=
  if valid_alpha_time a
  then guint64 (alpha_start a + GST_BUFFER_DURATION a)
  else GST_CLOCK_TIME_NONE.

Definition vid_running_time (thiz : GstAlphaMask) (start : Z) : Z :=
  gst_segment_to_running_time (segment thiz) GST_FORMAT_TIME start.

Definition vid_running_time_end (thiz : GstAlphaMask) (stop : Z) : Z :=
  gst_segment_to_running_time (segment thiz) GST_FORMAT_TIME stop.

Definition alpha_running_time (thiz : GstAlphaMask) (a : GstBuffer) : Z :=
  if valid_alpha_time a
  then gst_segment_to_running_time (alpha_segment thiz) GST_FORMAT_TIME
         (alpha_start a)
  else GST_CLOCK_TIME_NONE.

Definition alpha_running_time_end (thiz : GstAlphaMask) (a : GstBuffer) : Z :=
  if valid_alpha_time a
  then gst_segment_to_running_time (alpha_segment thiz) GST_FORMAT_TIME
         (alpha_end a)
  else GST_CLOCK_TIME_NONE.

(** "alpha buffer too old" *)
Definition alpha_too_old (thiz : GstAlphaMask) (a : GstBuffer) (start : Z)
  : bool :=
  valid_alpha_time a
  && (alpha_running_time_end thiz a <=? vid_running_time thiz start).

(** "alpha in future" *)
Definition alpha_in_future (thiz : GstAlphaMask) (a : GstBuffer) (stop : Z)
  : bool :=
  valid_alpha_time a
  && (vid_running_time_end thiz stop <=? alpha_running_time thiz a).

(** "alpha buffer not needed any longer" *)
Definition alpha_consumed (thiz : GstAlphaMask) (a : GstBuffer) (stop : Z)
  : bool :=
  valid_alpha_time a
  && (alpha_running_time_end thiz a <=? vid_running_time_end thiz stop).

(** The local [wait_for_alpha_buf] of the branch that finds no alpha buffer
    queued. *)
Definition need_to_wait (thiz : GstAlphaMask) (buffer : GstBuffer) : bool :=
  let wait_for_alpha_buf :=
    if alpha_eos thiz || alpha_segment_done thiz then false else true in
  if GstFormat_eqb (seg_format (alpha_segment thiz)) GST_FORMAT_TIME then
    let vid_running_time :=
      gst_segment_to_running_time (segment thiz) GST_FORMAT_TIME
        (GST_BUFFER_TIMESTAMP buffer) in
    let alpha_start_running_time :=
      gst_segment_to_running_time (alpha_segment thiz) GST_FORMAT_TIME
        (seg_start (alpha_segment thiz)) in
    let alpha_position_running_time :=
      gst_segment_to_running_time (alpha_segment thiz) GST_FORMAT_TIME
        (seg_position (alpha_segment thiz)) in
    if (GST_CLOCK_TIME_IS_VALID alpha_start_running_time
        && (vid_running_time <? alpha_start_running_time))
       || (GST_CLOCK_TIME_IS_VALID alpha_position_running_time
           && (vid_running_time <? alpha_position_running_time))
    then false
    else wait_for_alpha_buf
  else wait_for_alpha_buf.

(** One run of [gst_alpha_mask_video_chain] from the label
    [wait_for_alpha_buf] to the next [goto wait_for_alpha_buf] or to the
    [return]. *)
Inductive pass_result :=
| Retry (eff : list effect) (thiz : GstAlphaMask)
    (** the alpha buffer was too old: unlocked, [goto wait_for_alpha_buf] *)
| Block
    (** [GST_ALPHA_MASK_WAIT], then [goto wait_for_alpha_buf] *)
| Return (ret : GstFlowReturn) (eff : list effect) (thiz : GstAlphaMask).

(** "Update position" *)
Definition update_position (thiz : GstAlphaMask) (clip_start : Z)
  : GstAlphaMask :=
  set_segment thiz (set_position (segment thiz) clip_start).

Definition video_chain_pass (thiz : GstAlphaMask) (buffer : GstBuffer)
  (start stop clip_start : Z) : pass_result :=
  if video_flushing thiz then
    Return GST_FLOW_FLUSHING [BufferUnref buffer] thiz
  else if video_eos thiz then
    Return GST_FLOW_EOS [BufferUnref buffer] thiz
  else
    match alpha_buffer thiz with
    | Some a =>
        let pop_alpha := negb (valid_alpha_time a) in
        if alpha_too_old thiz a start then
          let '(eff, thiz') := gst_alpha_mask_pop_alpha thiz in
          Retry eff thiz'
        else if alpha_in_future thiz a stop then
          let '(eff, thiz') :=
            if pop_alpha then gst_alpha_mask_pop_alpha thiz else ([], thiz) in
          Return GST_FLOW_OK (BufferUnref buffer :: eff)
            (update_position thiz' clip_start)
        else
          let '(pushed, ret) := gst_alpha_mask_push_frame thiz buffer in
          let pop_alpha := pop_alpha || alpha_consumed thiz a stop in
          let '(eff, thiz') :=
            if pop_alpha then gst_alpha_mask_pop_alpha thiz else ([], thiz) in
          Return ret (pushed ++ eff) (update_position thiz' clip_start)
    | None =>
        if need_to_wait thiz buffer then Block
        else
          Return (gst_pad_push (Unmodified buffer))
            [PadPush (Unmodified buffer)] (update_position thiz clip_start)
    end.

Inductive chain_result :=
| Returned (ret : GstFlowReturn) (eff : list effect) (thiz : GstAlphaMask)
| Stalled (eff : list effect) (thiz : GstAlphaMask).

Definition with_effects (eff : list effect) (r : chain_result)
  : chain_result :=
  match r with
  | Returned ret e t => Returned ret (eff ++ e) t
  | Stalled e t => Stalled (eff ++ e) t
  end.

(** The loop at [wait_for_alpha_buf] when nothing else touches the element
    any more: a wait never ends, and after a too old alpha buffer is popped
    the next run finds the slot empty. *)
Definition video_chain_alone (thiz : GstAlphaMask) (buffer : GstBuffer)
  (start stop clip_start : Z) : chain_result :=
  match video_chain_pass thiz buffer start stop clip_start with
  | Return ret eff thiz' => Returned ret eff thiz'
  | Block => Stalled [] thiz
  | Retry eff thiz' =>
      match video_chain_pass thiz' buffer start stop clip_start with
      | Return ret eff' thiz'' => Returned ret (eff ++ eff') thiz''
      | _ => Stalled eff thiz'
      end
  end.

(** The loop at [wait_for_alpha_buf].  Each time the lock is taken again,
    after the unlock before a [goto] or inside the wait, the element is what
    the next interference of [env] made of it. *)
Fixpoint video_chain_from_wait (env : list interference)
  (thiz : GstAlphaMask) (buffer : GstBuffer) (start stop clip_start : Z)
  : chain_result :=
  match env with
  | [] => video_chain_alone thiz buffer start stop clip_start
  | f :: env' =>
      match video_chain_pass thiz buffer start stop clip_start with
      | Return ret eff thiz' => Returned ret eff thiz'
      | Retry eff thiz' =>
          with_effects eff
            (video_chain_from_wait env' (f thiz') buffer start stop clip_start)
      | Block =>
          video_chain_from_wait env' (f thiz) buffer start stop clip_start
      end
  end.

(** "if the buffer is only partially in the segment, fix up stamps" *)
Definition fix_up_stamps (buffer : GstBuffer) (start stop clip_start clip_stop : Z)
  : GstBuffer :=
  if negb (clip_start =? start)
     || (negb (stop =? GST_CLOCK_TIME_NONE) && negb (clip_stop =? stop))
  then
    let buffer := set_timestamp buffer clip_start in
    if negb (stop =? GST_CLOCK_TIME_NONE)
    then set_duration buffer (guint64 (clip_stop - clip_start))
    else buffer
  else buffer.

(** "fix up end time if there's no duration" *)
Definition estimate_stop (thiz : GstAlphaMask) (start stop : Z) : Z :=
  if stop =? GST_CLOCK_TIME_NONE then
    if negb (fps_n thiz =? 0) && negb (fps_d thiz =? 0) then
      guint64 (start + gst_util_uint64_scale_int GST_SECOND
                         (fps_d thiz) (fps_n thiz))
    else guint64 (start + 1)
  else stop.

Definition gst_alpha_mask_video_chain (env : list interference)
  (thiz : GstAlphaMask) (buffer : GstBuffer) : chain_result :=
  if negb (GST_BUFFER_TIMESTAMP_IS_VALID buffer) then
    (* missing_timestamp *)
    Returned GST_FLOW_OK [BufferUnref buffer] thiz
  else
    let start := GST_BUFFER_TIMESTAMP buffer in
    let stop :=
      if negb (GST_BUFFER_DURATION_IS_VALID buffer) then GST_CLOCK_TIME_NONE
      else guint64 (start + GST_BUFFER_DURATION buffer) in
    if (stop =? GST_CLOCK_TIME_NONE) && (start <? seg_start (segment thiz))
    then (* out_of_segment *)
      Returned GST_FLOW_OK [BufferUnref buffer] thiz
    else
      match gst_segment_clip (segment thiz) GST_FORMAT_TIME start stop with
      | None => (* out_of_segment *)
          Returned GST_FLOW_OK [BufferUnref buffer] thiz
      | Some (clip_start, clip_stop) =>
          let buffer := fix_up_stamps buffer start stop clip_start clip_stop in
          let stop := estimate_stop thiz start stop in
          video_chain_from_wait env thiz buffer start stop clip_start
      end.

(** "Wait for the previous buffer to go away": the [while] loop of
    [gst_alpha_mask_alpha_chain]. *)
Inductive wait_result :=
| SlotFree (thiz : GstAlphaMask)
| WaitFlushing (thiz : GstAlphaMask)
| WaitForever (thiz : GstAlphaMask).

Fixpoint wait_previous_buffer (env : list interference) (thiz : GstAlphaMask)
  : wait_result :=
  match alpha_buffer thiz with
  | None => SlotFree thiz
  | Some _ =>
      match env with
      | [] => WaitForever thiz
      | f :: env' =>
          let thiz := f thiz in
          if alpha_flushing thiz then WaitFlushing thiz
          else wait_previous_buffer env' thiz
      end
  end.

Definition gst_alpha_mask_alpha_chain (env : list interference)
  (thiz : GstAlphaMask) (buffer : GstBuffer) : chain_result :=
  if alpha_flushing thiz then
    Returned GST_FLOW_FLUSHING [BufferUnref buffer] thiz
  else if alpha_eos thiz then
    Returned GST_FLOW_EOS [BufferUnref buffer] thiz
  else
    let '(in_seg, clip_start, clip_stop) :=
      if GST_BUFFER_TIMESTAMP_IS_VALID buffer then
        let stop :=
          if GST_BUFFER_DURATION_IS_VALID buffer
          then guint64 (GST_BUFFER_TIMESTAMP buffer
                        + GST_BUFFER_DURATION buffer)
          else GST_CLOCK_TIME_NONE in
        match gst_segment_clip (alpha_segment thiz) GST_FORMAT_TIME
                (GST_BUFFER_TIMESTAMP buffer) stop with
        | Some (clip_start, clip_stop) => (true, clip_start, clip_stop)
        | None => (false, 0, 0)
        end
      else (true, 0, 0) in
    if in_seg then
      let buffer :=
        if GST_BUFFER_TIMESTAMP_IS_VALID buffer
        then set_timestamp buffer clip_start else buffer in
      let buffer :=
        if GST_BUFFER_DURATION_IS_VALID buffer
        then set_duration buffer (guint64 (clip_stop - clip_start))
        else buffer in
      match wait_previous_buffer env thiz with
      | WaitFlushing thiz => Returned GST_FLOW_FLUSHING [BufferUnref buffer] thiz
      | WaitForever thiz => Stalled [] thiz
      | SlotFree thiz =>
          let thiz :=
            if GST_BUFFER_TIMESTAMP_IS_VALID buffer
            then set_alpha_segment thiz
                   (set_position (alpha_segment thiz) clip_start)
            else thiz in
          Returned GST_FLOW_OK [] (set_alpha_buffer thiz (Some buffer))
      end
    else
      Returned GST_FLOW_OK [BufferUnref buffer] thiz.

End Chains.

(** ** GStreamer's segment functions for forward segments of rate 1.0

    The chain functions are stated over any [GstCore].  To run them on
    concrete buffers the functions of GStreamer's [gstsegment.c] and
    [gstutils.c] are written out here for segments played forward at rate
    1.0; frames always map and downstream always accepts. *)

Definition gst_segment_clip_1_0 (segment : GstSegment) (format : GstFormat)
  (start stop : Z) : option (Z * Z) :=
  if negb (GstFormat_eqb (seg_format segment) format) then None
  else if negb (seg_stop segment =? GST_CLOCK_TIME_NONE)
          && negb (start =? GST_CLOCK_TIME_NONE)
          && ((seg_stop segment <? start)
              || (negb (seg_start segment =? seg_stop segment)
                  && (start =? seg_stop segment)))
  then None
  else if negb (stop =? GST_CLOCK_TIME_NONE)
          && ((stop <? seg_start segment)
              || (negb (start =? stop) && (stop =? seg_start segment)))
  then None
  else
    Some (if start =? GST_CLOCK_TIME_NONE then GST_CLOCK_TIME_NONE
          else Z.max start (seg_start segment),
          if stop =? GST_CLOCK_TIME_NONE then seg_stop segment
          else if seg_stop segment =? GST_CLOCK_TIME_NONE then stop
          else Z.min stop (seg_stop segment)).

Definition gst_segment_to_running_time_1_0 (segment : GstSegment)
  (format : GstFormat) (position : Z) : Z :=
  if negb (GstFormat_eqb (seg_format segment) format) then GST_CLOCK_TIME_NONE
  else if position <? seg_start segment then GST_CLOCK_TIME_NONE
  else if negb (seg_stop segment =? GST_CLOCK_TIME_NONE)
          && (seg_stop segment <? position)
  then GST_CLOCK_TIME_NONE
  else if position =? GST_CLOCK_TIME_NONE then GST_CLOCK_TIME_NONE
  else
    let start := guint64 (seg_start segment + seg_offset segment) in
    if position <? start then
      let result := start - position in
      if result <=? seg_base segment then seg_base segment - result
      else GST_CLOCK_TIME_NONE
    else guint64 (position - start + seg_base segment).

Definition gst_util_uint64_scale_int_1_0 (val num denom : Z) : Z :=
  if (denom <=? 0) || (num <? 0) then 2 ^ 64 - 1
  else Z.min (val * num / denom) (2 ^ 64 - 1).

Definition gst_1_0 : GstCore :=
  {| gst_segment_clip := gst_segment_clip_1_0;
     gst_segment_to_running_time := gst_segment_to_running_time_1_0;
     gst_util_uint64_scale_int := gst_util_uint64_scale_int_1_0;
     gst_video_frame_map := fun _ _ => true;
     gst_pad_push := fun _ => GST_FLOW_OK |}.

(** A segment of format TIME that starts at [start] and is open ended. *)
Definition time_segment (start : Z) : GstSegment :=
  {| seg_format := GST_FORMAT_TIME; seg_base := 0; seg_offset := 0;
     seg_start := start; seg_stop := GST_CLOCK_TIME_NONE;
     seg_position := start |}.

(** The element in PAUSED or PLAYING with both segments as given, I420 video
    converted to AYUV, 30 frames per second, and [a] in the slot. *)
Definition playing (vseg aseg : GstSegment) (a : option GstBuffer)
  : GstAlphaMask :=
  {| segment := vseg; alpha_segment := aseg; alpha_buffer := a;
     video_flushing := false; video_eos := false;
     alpha_flushing := false; alpha_eos := false;
     alpha_segment_done := false;
     fps_n := 30; fps_d := 1;
     iformat := GST_VIDEO_FORMAT_I420; oformat := GST_VIDEO_FORMAT_AYUV |}.

Definition stamped (ts dur : Z) (mem : N) : GstBuffer :=
  {| GST_BUFFER_TIMESTAMP := ts; GST_BUFFER_DURATION := dur;
     buffer_memory := mem |}.

Definition msec (n : Z) : Z := n * 1000000.

(** [o] pairs the video buffer [v] with the alpha buffer [a]. *)
Definition pairs (o : OutBuffer) (v a : GstBuffer) : Prop :=
  o = AlphaAppended v a \/ o = Converted v (Some a).

(** The output format is one that has an alpha channel and the three frames
    of [gst_alpha_mask_convert] map. *)
Definition can_composite `{GstCore} (thiz : GstAlphaMask) (v a : GstBuffer)
  : Prop :=
  (oformat thiz = GST_VIDEO_FORMAT_A420
   \/ oformat thiz = GST_VIDEO_FORMAT_ARGB
   \/ oformat thiz = GST_VIDEO_FORMAT_AYUV)
  /\ gst_video_frame_map InFrame v = true
  /\ gst_video_frame_map OutFrame v = true
  /\ gst_video_frame_map AlphaFrame a = true.

(** The condition under which a video buffer that finds the slot empty is
    not made to wait. *)
Definition no_need_to_wait `{GstCore} (thiz : GstAlphaMask)
  (buffer : GstBuffer) : Prop :=
  let vid := gst_segment_to_running_time (segment thiz) GST_FORMAT_TIME
               (GST_BUFFER_TIMESTAMP buffer) in
  let alpha_start := gst_segment_to_running_time (alpha_segment thiz)
                       GST_FORMAT_TIME (seg_start (alpha_segment thiz)) in
  let alpha_position := gst_segment_to_running_time (alpha_segment thiz)
                          GST_FORMAT_TIME (seg_position (alpha_segment thiz)) in
  alpha_eos thiz = true \/ alpha_segment_done thiz = true
  \/ (seg_format (alpha_segment thiz) = GST_FORMAT_TIME
      /\ ((alpha_start <> GST_CLOCK_TIME_NONE /\ vid < alpha_start)
          \/ (alpha_position <> GST_CLOCK_TIME_NONE /\ vid < alpha_position))).

(** ** Caps

    The fields of a [GstVideoInfo] that the element reads or sets. *)
Record GstVideoInfo := {
  info_format : GstVideoFormat;
  info_width : Z;
  info_height : Z;
  info_par_n : Z;
  info_par_d : Z;
  info_fps_n : Z;
  info_fps_d : Z
}.

(** A [GstCaps], by what the element asks of it: whether it is empty, and
    the video info that [gst_video_info_from_caps] fills in for it, [None]
    when that call returns [FALSE]. *)
Record GstCaps := {
  gst_caps_is_empty : bool;
  gst_video_info_from_caps : option GstVideoInfo
}.

(** What [gst_pad_get_allowed_caps (thiz->srcpad)] returns, as
    [gst_alpha_mask_negotiate] tells the cases apart: [NULL], the very caps
    object of the source pad template, or other caps. *)
Inductive allowed_caps :=
| AllowedNull
| AllowedTemplate
| AllowedCaps (c : GstCaps).

(** The GStreamer functions that [gst_alpha_mask_negotiate] calls on the
    source pad and on video infos.  [gst_video_info_set_format] is [None]
    when it returns [FALSE], having left the info as it was;
    [gst_video_converter_new] tells whether a converter is made. *)
Class GstCapsCore := {
  gst_pad_get_allowed_caps : allowed_caps;
  gst_caps_fixate : GstCaps -> GstCaps;
  gst_video_info_set_format : GstVideoFormat -> Z -> Z -> option GstVideoInfo;
  gst_video_converter_new : GstVideoInfo -> GstVideoInfo -> bool;
  gst_video_info_to_caps : GstVideoInfo -> GstCaps;
  gst_pad_set_caps : GstCaps -> bool
}.

Definition DEFAULT_FORMAT : GstVideoFormat := GST_VIDEO_FORMAT_A420.

Definition set_video_info (t : GstAlphaMask) (info : GstVideoInfo)
  : GstAlphaMask :=
  {| segment := segment t; alpha_segment := alpha_segment t;
     alpha_buffer := alpha_buffer t;
     video_flushing := video_flushing t; video_eos := video_eos t;
     alpha_flushing := alpha_flushing t; alpha_eos := alpha_eos t;
     alpha_segment_done := alpha_segment_done t;
     fps_n := info_fps_n info; fps_d := info_fps_d info;
     iformat := info_format info; oformat := oformat t |}.

Definition set_oformat (t : GstAlphaMask) (format : GstVideoFormat)
  : GstAlphaMask :=
  {| segment := segment t; alpha_segment := alpha_segment t;
     alpha_buffer := alpha_buffer t;
     video_flushing := video_flushing t; video_eos := video_eos t;
     alpha_flushing := alpha_flushing t; alpha_eos := alpha_eos t;
     alpha_segment_done := alpha_segment_done t;
     fps_n := fps_n t; fps_d := fps_d t;
     iformat := iformat t; oformat := format |}.

Section Caps.
Context `{GstCapsCore}.

(** [gst_alpha_mask_negotiate].  [iinfo] is the field [thiz->iinfo], and
    [thiz->width] and [thiz->height] are its width and height, as
    [gst_alpha_mask_video_setcaps] has set them just before the call; these
    fields, [oinfo] and [convert] are not among those of [GstAlphaMask]
    here, so that of what the function stores only [oformat] shows.  The
    two calls that only touch the reconfigure flag of the source pad, and
    the reference counting of the caps, are left out.

    The local [info] is filled by [gst_video_info_from_caps], whose return
    value the source does not look at, and by [gst_video_info_set_format].
    The result is [None], for undefined, where the source reads [info]
    although neither call has filled it. *)
Definition gst_alpha_mask_negotiate (thiz : GstAlphaMask)
  (iinfo : GstVideoInfo) (caps : GstCaps) : option (GstAlphaMask * bool) :=
  if gst_caps_is_empty caps then Some (thiz, false)
  else
    let finish (info : option GstVideoInfo) (format : GstVideoFormat) :=
      let info :=
        match gst_video_info_set_format format
                (info_width iinfo mod 2 ^ 32) (info_height iinfo mod 2 ^ 32)
        with
        | Some i => Some i
        | None => info
        end in
      match info with
      | None => None
      | Some info =>
          let info :=
            {| info_format := info_format info;
               info_width := info_width info;
               info_height := info_height info;
               info_par_n := info_par_n iinfo;
               info_par_d := info_par_d iinfo;
               info_fps_n := info_fps_n iinfo;
               info_fps_d := info_fps_d iinfo |} in
          if negb (gst_video_converter_new iinfo info) then
            Some (thiz, false)
          else
            Some (set_oformat thiz format,
                  gst_pad_set_caps (gst_video_info_to_caps info))
      end in
    match gst_pad_get_allowed_caps with
    | AllowedTemplate => finish None DEFAULT_FORMAT
    | AllowedCaps allowed =>
        if gst_caps_is_empty allowed then Some (thiz, false)
        else
          match gst_video_info_from_caps (gst_caps_fixate allowed) with
          | Some info => finish (Some info) (info_format info)
          | None => None
          end
    | AllowedNull => finish None DEFAULT_FORMAT
    end.

(** [gst_alpha_mask_video_setcaps].  Of [thiz->iinfo] the element here has
    the frame rate. *)
Definition gst_alpha_mask_video_setcaps (thiz : GstAlphaMask) (caps : GstCaps)
  : option (GstAlphaMask * bool) :=
  match gst_video_info_from_caps caps with
  | None => Some (thiz, false)
  | Some info => gst_alpha_mask_negotiate (set_video_info thiz info) info caps
  end.

End Caps.

(** [gst_alpha_mask_alpha_setcaps]: what it returns.  It stores the info in
    [thiz->ainfo], which is not among the fields of [GstAlphaMask] here. *)
Definition gst_alpha_mask_alpha_setcaps (caps : GstCaps) : bool :=
  match gst_video_info_from_caps caps with
  | None => false
  | Some _ => true
  end.

(** ** The event handlers and the state change

    The handlers are modelled on the events they treat themselves and on
    the ones they hand to [gst_pad_event_default]. *)

Inductive GstEvent :=
| GST_EVENT_CAPS (caps : GstCaps)
| GST_EVENT_SEGMENT (s : GstSegment)
| GST_EVENT_EOS
| GST_EVENT_SEGMENT_DONE
| GST_EVENT_FLUSH_START
| GST_EVENT_FLUSH_STOP
| GST_EVENT_GAP (start duration : Z)
| GST_EVENT_QOS
| GST_EVENT_OTHER (type : N).

(** What a handler returns: [TRUE] or [FALSE] after it has dropped the
    event, or the value of [gst_pad_event_default] on the event. *)
Inductive event_return :=
| EventTrue
| EventFalse
| EventDefault (e : GstEvent).

Definition event_return_of (ret : bool) : event_return :=
  if ret then EventTrue else EventFalse.

Definition set_video_flags (t : GstAlphaMask) (flushing eos : bool)
  : GstAlphaMask :=
  {| segment := segment t; alpha_segment := alpha_segment t;
     alpha_buffer := alpha_buffer t;
     video_flushing := flushing; video_eos := eos;
     alpha_flushing := alpha_flushing t; alpha_eos := alpha_eos t;
     alpha_segment_done := alpha_segment_done t;
     fps_n := fps_n t; fps_d := fps_d t;
     iformat := iformat t; oformat := oformat t |}.

Definition set_alpha_flags (t : GstAlphaMask) (flushing eos done : bool)
  : GstAlphaMask :=
  {| segment := segment t; alpha_segment := alpha_segment t;
     alpha_buffer := alpha_buffer t;
     video_flushing := video_flushing t; video_eos := video_eos t;
     alpha_flushing := flushing; alpha_eos := eos;
     alpha_segment_done := done;
     fps_n := fps_n t; fps_d := fps_d t;
     iformat := iformat t; oformat := oformat t |}.

(** [gst_alpha_mask_video_event].  The second component is the value the
    handler stores in [video_segment_done], a field that nothing reads.
    There is no result where [gst_alpha_mask_negotiate] has none. *)
Definition gst_alpha_mask_video_event `{GstCapsCore} (thiz : GstAlphaMask)
  (event : GstEvent) : option (GstAlphaMask * option bool * event_return) :=
  match event with
  | GST_EVENT_CAPS caps =>
      '(thiz, ret) ← gst_alpha_mask_video_setcaps thiz caps;
      Some (thiz, None, event_return_of ret)
  | GST_EVENT_SEGMENT s =>
      let thiz := set_video_flags thiz (video_flushing thiz) false in
      let thiz :=
        if GstFormat_eqb (seg_format s) GST_FORMAT_TIME
        then set_segment thiz s else thiz in
      Some (thiz, Some false, EventDefault event)
  | GST_EVENT_EOS =>
      Some (set_video_flags thiz (video_flushing thiz) true, None,
            EventDefault event)
  | GST_EVENT_SEGMENT_DONE => Some (thiz, Some true, EventDefault event)
  | GST_EVENT_FLUSH_START =>
      Some (set_video_flags thiz true (video_eos thiz), None,
            EventDefault event)
  | GST_EVENT_FLUSH_STOP =>
      let thiz := set_video_flags thiz false false in
      Some (set_segment thiz (gst_segment_init GST_FORMAT_TIME), Some false,
            EventDefault event)
  | _ => Some (thiz, None, EventDefault event)
  end.

(** Whether [gst_alpha_mask_video_event] calls [GST_ALPHA_MASK_BROADCAST]
    on the event. *)
Definition video_event_broadcasts (event : GstEvent) : bool :=
  match event with
  | GST_EVENT_FLUSH_START => true
  | _ => false
  end.

(** [gst_alpha_mask_alpha_event]. *)
Definition gst_alpha_mask_alpha_event (thiz : GstAlphaMask) (event : GstEvent)
  : list effect * GstAlphaMask * event_return :=
  match event with
  | GST_EVENT_CAPS caps =>
      ([], thiz, event_return_of (gst_alpha_mask_alpha_setcaps caps))
  | GST_EVENT_SEGMENT s =>
      let thiz := set_alpha_flags thiz (alpha_flushing thiz) false false in
      let '(eff, thiz) := gst_alpha_mask_pop_alpha thiz in
      let thiz :=
        if GstFormat_eqb (seg_format s) GST_FORMAT_TIME
        then set_alpha_segment thiz s else thiz in
      (eff, thiz, EventTrue)
  | GST_EVENT_GAP start duration =>
      let start :=
        if GST_CLOCK_TIME_IS_VALID duration then guint64 (start + duration)
        else start in
      ([], set_alpha_segment thiz (set_position (alpha_segment thiz) start),
       EventTrue)
  | GST_EVENT_FLUSH_STOP =>
      let thiz := set_alpha_flags thiz false false false in
      let '(eff, thiz) := gst_alpha_mask_pop_alpha thiz in
      (eff, set_alpha_segment thiz (gst_segment_init GST_FORMAT_TIME),
       EventTrue)
  | GST_EVENT_FLUSH_START =>
      ([], set_alpha_flags thiz true (alpha_eos thiz) (alpha_segment_done thiz),
       EventTrue)
  | GST_EVENT_SEGMENT_DONE =>
      ([], set_alpha_flags thiz (alpha_flushing thiz) (alpha_eos thiz) true,
       EventTrue)
  | GST_EVENT_EOS =>
      ([], set_alpha_flags thiz (alpha_flushing thiz) true
             (alpha_segment_done thiz),
       EventTrue)
  | _ => ([], thiz, EventDefault event)
  end.

(** Whether [gst_alpha_mask_alpha_event] calls [GST_ALPHA_MASK_BROADCAST]
    on the event, itself or, for flush stop, through
    [gst_alpha_mask_pop_alpha], which always does.  On a segment event it
    does both: the first broadcast comes before the segment is copied, the
    second after. *)
Definition alpha_event_broadcasts (event : GstEvent) : bool :=
  match event with
  | GST_EVENT_SEGMENT _
  | GST_EVENT_GAP _ _
  | GST_EVENT_FLUSH_STOP
  | GST_EVENT_FLUSH_START
  | GST_EVENT_SEGMENT_DONE
  | GST_EVENT_EOS => true
  | _ => false
  end.

Inductive GstStateChange :=
| GST_STATE_CHANGE_NULL_TO_READY
| GST_STATE_CHANGE_READY_TO_PAUSED
| GST_STATE_CHANGE_PAUSED_TO_PLAYING
| GST_STATE_CHANGE_PLAYING_TO_PAUSED
| GST_STATE_CHANGE_PAUSED_TO_READY
| GST_STATE_CHANGE_READY_TO_NULL.

Inductive GstStateChangeReturn :=
| GST_STATE_CHANGE_FAILURE
| GST_STATE_CHANGE_SUCCESS
| GST_STATE_CHANGE_ASYNC
| GST_STATE_CHANGE_NO_PREROLL.

(** [gst_alpha_mask_change_state]; [parent] is what the [change_state] of
    the parent class returns. *)
Definition gst_alpha_mask_change_state (parent : GstStateChangeReturn)
  (thiz : GstAlphaMask) (transition : GstStateChange)
  : list effect * GstAlphaMask * GstStateChangeReturn :=
  let '(eff, thiz) :=
    match transition with
    | GST_STATE_CHANGE_PAUSED_TO_READY =>
        let thiz :=
          set_alpha_flags thiz true (alpha_eos thiz) (alpha_segment_done thiz) in
        let thiz := set_video_flags thiz true (video_eos thiz) in
        gst_alpha_mask_pop_alpha thiz
    | _ => ([], thiz)
    end in
  match parent with
  | GST_STATE_CHANGE_FAILURE => (eff, thiz, parent)
  | _ =>
      match transition with
      | GST_STATE_CHANGE_READY_TO_PAUSED =>
          let thiz :=
            set_alpha_flags thiz false false (alpha_segment_done thiz) in
          let thiz := set_video_flags thiz false false in
          let thiz := set_segment thiz (gst_segment_init GST_FORMAT_TIME) in
          let thiz :=
            set_alpha_segment thiz (gst_segment_init GST_FORMAT_TIME) in
          (eff, thiz, parent)
      | _ => (eff, thiz, parent)
      end
  end.

(** [gst_alpha_mask_alpha_pad_unlink]: the element, and the value stored in
    [alpha_linked]. *)
Definition gst_alpha_mask_alpha_pad_unlink (thiz : GstAlphaMask)
  : GstAlphaMask * bool :=
  (set_alpha_segment thiz (gst_segment_init GST_FORMAT_UNDEFINED), false).

(** The element as a handler leaves it, for use as an [interference]; as
    it was where [gst_alpha_mask_video_event] has no result. *)
Definition after_video_event `{GstCapsCore} (e : GstEvent) : interference :=
  fun thiz =>
    match gst_alpha_mask_video_event thiz e with
    | Some r => r.1.1
    | None => thiz
    end.

Definition after_alpha_event (e : GstEvent) : interference :=
  fun thiz => (gst_alpha_mask_alpha_event thiz e).1.2.

Definition chain_state (r : chain_result) : GstAlphaMask :=
  match r with
  | Returned _ _ t => t
  | Stalled _ t => t
  end.

Definition chain_effects (r : chain_result) : list effect :=
  match r with
  | Returned _ eff _ => eff
  | Stalled eff _ => eff
  end.

(** The alpha chain run by the other thread while the video chain does not
    hold the lock. *)
Definition after_alpha_chain `{GstCore} (b : GstBuffer) : interference :=
  fun thiz => chain_state (gst_alpha_mask_alpha_chain [] thiz b).

(** The video buffer that an output buffer was made from. *)
Definition out_video (o : OutBuffer) : GstBuffer :=
  match o with
  | Unmodified v => v
  | AlphaAppended v _ => v
  | Converted v _ => v
  end.

(** The buffers pushed on the source pad, in order. *)
Definition pushes (eff : list effect) : list OutBuffer :=
  omap (fun e => match e with PadPush o => Some o | BufferUnref _ => None end)
    eff.

(** At most one buffer is pushed for a frame, and it is made from the video
    buffer handed in. *)
Definition pushes_at_most (buffer : GstBuffer) (eff : list effect) : Prop :=
  pushes eff = [] \/ exists o, pushes eff = [o] /\ out_video o = buffer.

(** Two elements that differ at most in the slot and in the position of the
    video segment. *)
Definition same_but_slot_and_position (t t' : GstAlphaMask) : Prop :=
  set_position (segment t') 0 = set_position (segment t) 0
  /\ alpha_segment t' = alpha_segment t
  /\ video_flushing t' = video_flushing t /\ video_eos t' = video_eos t
  /\ alpha_flushing t' = alpha_flushing t /\ alpha_eos t' = alpha_eos t
  /\ alpha_segment_done t' = alpha_segment_done t
  /\ fps_n t' = fps_n t /\ fps_d t' = fps_d t
  /\ iformat t' = iformat t /\ oformat t' = oformat t.

(** ** Waiting and waking

    The element after the interferences of [env], first to last. *)
Definition after (env : list interference) (thiz : GstAlphaMask)
  : GstAlphaMask :=
  foldl (fun t (f : interference) => f t) thiz env.

(** A thread in [GST_ALPHA_MASK_WAIT] is woken by a broadcast and by nothing
    else.  A step of another thread is what it does to the element and
    whether it broadcasts when it is done; of a run of such steps,
    [wake_ups] gives the interferences that the waiting thread sees, one for
    each wake-up: what has been done since it last held the lock, up to and
    including the step that broadcasts.  What is done after the last
    broadcast it does not see. *)
Definition step : Type := interference * bool.

Fixpoint wake_ups (unseen : interference) (steps : list step)
  : list interference :=
  match steps with
  | [] => []
  | (f, broadcast) :: steps' =>
      let seen : interference := fun thiz => f (unseen thiz) in
      if broadcast then seen :: wake_ups (fun thiz => thiz) steps'
      else wake_ups seen steps'
  end.

Definition on_video_pad `{GstCapsCore} (e : GstEvent) : step :=
  (after_video_event e, video_event_broadcasts e).

Definition on_alpha_pad (e : GstEvent) : step :=
  (after_alpha_event e, alpha_event_broadcasts e).

(** Two elements that differ at most in the slot and in the position of the
    alpha segment. *)
Definition same_but_slot_and_alpha_position (t t' : GstAlphaMask) : Prop :=
  segment t' = segment t
  /\ set_position (alpha_segment t') 0 = set_position (alpha_segment t) 0
  /\ video_flushing t' = video_flushing t /\ video_eos t' = video_eos t
  /\ alpha_flushing t' = alpha_flushing t /\ alpha_eos t' = alpha_eos t
  /\ alpha_segment_done t' = alpha_segment_done t
  /\ fps_n t' = fps_n t /\ fps_d t' = fps_d t
  /\ iformat t' = iformat t /\ oformat t' = oformat t.

(** A downstream that takes any caps: the allowed caps are those of the
    template, every converter can be made and the caps are accepted. *)
Definition downstream_any : GstCapsCore :=
  {| gst_pad_get_allowed_caps := AllowedTemplate;
     gst_caps_fixate := fun c => c;
     gst_video_info_set_format := fun format width height =>
       Some {| info_format := format; info_width := width;
               info_height := height; info_par_n := 1; info_par_d := 1;
               info_fps_n := 0; info_fps_d := 1 |};
     gst_video_converter_new := fun _ _ => true;
     gst_video_info_to_caps := fun info =>
       {| gst_caps_is_empty := false;
          gst_video_info_from_caps := Some info |};
     gst_pad_set_caps := fun _ => true |}.

(** * The compositor *)

Local Close Scope Z_scope.
Local Open Scope N_scope.

Example copy_alpha_packed_u1_3x2 :
  copy_alpha_packed LittleEndian (bytes_of (repeat 0 24)) 12
    (bytes_of [1;2;3;9; 4;5;6;9]) 4 3 2
  = Some (bytes_of [1;0;0;0;2;0;0;0;3;0;0;0; 4;0;0;0;5;0;0;0;6;0;0;0]).
Proof. reflexivity. Qed.

Example copy_alpha_packed_u4_4x2 :
  copy_alpha_packed LittleEndian (bytes_of (repeat 7 32)) 16
    (bytes_of [1;2;3;4; 5;6;7;8]) 4 4 2
  = Some (bytes_of [1;7;7;7;2;7;7;7;3;7;7;7;4;7;7;7;
                    5;7;7;7;6;7;7;7;7;7;7;7;8;7;7;7]).
Proof. reflexivity. Qed.

Example copy_alpha_packed_u8_8x1 :
  copy_alpha_packed LittleEndian (bytes_of (repeat 0 32)) 32
    (bytes_of [1;2;3;4;5;6;7;8]) 8 8 1
  = copy_alpha_packed_u1 (bytes_of (repeat 0 32)) 0 32
      (bytes_of [1;2;3;4;5;6;7;8]) 0 8 8 1.
Proof. reflexivity. Qed.

Lemma byte_of_to_N (b : byte) : byte_of_N (Byte.to_N b) = b.
Proof.
  unfold byte_of_N. pose proof (Byte.to_N_bounded b).
  rewrite N.mod_small by lia. by rewrite Byte.of_to_N.
Qed.

Lemma low_byte (b : byte) (r : N) :
  byte_of_N (N.land (Byte.to_N b + 256 * r) 255) = b.
Proof.
  pose proof (Byte.to_N_bounded b).
  change 255 with (N.ones 8). rewrite N.land_ones.
  change (2 ^ 8) with 256.
  replace (Byte.to_N b + 256 * r) with (Byte.to_N b + r * 256) by lia.
  rewrite N.Div0.mod_add, N.mod_small by lia.
  apply byte_of_to_N.
Qed.

Lemma drop_low_byte (b : byte) (r : N) :
  N.shiftr (Byte.to_N b + 256 * r) 8 = r.
Proof.
  pose proof (Byte.to_N_bounded b).
  rewrite N.shiftr_div_pow2. change (2 ^ 8) with 256.
  replace (Byte.to_N b + 256 * r) with (Byte.to_N b + r * 256) by lia.
  rewrite N.div_add by lia. rewrite N.div_small by lia. lia.
Qed.

Lemma for_loop_ext {St} n j (f g : N -> St -> option St) s :
  (forall k s', f k s' = g k s') -> for_loop n j f s = for_loop n j g s.
Proof.
  intros E. revert j s. induction n as [|n IH]; intros j s; simpl; [done|].
  rewrite E. destruct (g j s); simpl; auto.
Qed.

Lemma guint_small x : x < 2 ^ 32 -> guint x = x.
Proof. intros. unfold guint. by apply N.mod_small. Qed.


(** Case analysis on the loads and stores of a straight-line block; two
    accesses whose addresses are provably equal are identified first. *)
Ltac case_loads :=
  repeat match goal with
    | |- context [load ?mem ?a] =>
        try match goal with
          | |- context [load mem ?a'] =>
              lazymatch a' with
              | a => fail
              | _ => replace a' with a by lia
              end
          end;
        destruct (load mem a) as [?b|]; cbn [mbind option_bind]
    end.

Ltac case_stores :=
  repeat match goal with
    | |- context [store ?mem ?a ?v] =>
        try match goal with
          | |- context [store mem ?a' v] =>
              lazymatch a' with
              | a => fail
              | _ => replace a' with a by lia
              end
          end;
        destruct (store mem a v) as [?m|]; cbn [mbind option_bind]
    end.

Lemma u4_group_u1 smem dst src j m :
  4 * (4 * j + 3) < 2 ^ 32 ->
  packed_u4_group LittleEndian smem src j (dst + 16 * j, m)
  = m' ← for_loop 4 (4 * j) (packed_u1_pixel smem dst src) m;
    Some (dst + 16 * N.succ j, m').
Proof.
  intros Hj.
  unfold packed_u4_group, load_word, packed_u1_pixel, put_low.
  cbn [for_loop load_bytes].
  rewrite !guint_small by lia.
  case_loads; cbn [le_combine];
    repeat (rewrite low_byte || rewrite drop_low_byte);
    case_stores; try done.
  do 2 f_equal; lia.
Qed.

Lemma u8_group_u1 smem dst src j m :
  4 * (8 * j + 7) < 2 ^ 32 ->
  packed_u8_group LittleEndian smem src j (dst + 32 * j, m)
  = m' ← for_loop 8 (8 * j) (packed_u1_pixel smem dst src) m;
    Some (dst + 32 * N.succ j, m').
Proof.
  intros Hj.
  unfold packed_u8_group, load_word, packed_u1_pixel, put_low.
  cbn [for_loop load_bytes].
  rewrite !guint_small by lia.
  case_loads; cbn [le_combine];
    repeat (rewrite low_byte || rewrite drop_low_byte);
    case_stores; try done.
  do 2 f_equal; lia.
Qed.

Lemma for_loop_add {St} a b j (f : N -> St -> option St) s :
  for_loop (a + b) j f s
  = s' ← for_loop a j f s; for_loop b (j + N.of_nat a) f s'.
Proof.
  revert j s. induction a as [|a IH]; intros j s.
  - cbn. by rewrite N.add_0_r.
  - cbn [for_loop Nat.add]. destruct (f j s) as [s1|]; cbn; [|done].
    rewrite IH. by replace (N.succ j + N.of_nat a) with (j + N.of_nat (S a)) by lia.
Qed.

Lemma u4_inner smem dst src (g : nat) : forall j m,
  16 * (j + N.of_nat g) <= 2 ^ 32 ->
  for_loop g j (packed_u4_group LittleEndian smem src) (dst + 16 * j, m)
  = m' ← for_loop (4 * g) (4 * j) (packed_u1_pixel smem dst src) m;
    Some (dst + 16 * (j + N.of_nat g), m').
Proof.
  induction g as [|g IH]; intros j m Hb.
  - cbn. by rewrite N.add_0_r.
  - cbn [for_loop].
    replace (4 * S g)%nat with (4 + 4 * g)%nat by lia.
    rewrite for_loop_add.
    rewrite u4_group_u1 by lia.
    destruct (for_loop 4 (4 * j) _ m) as [m1|]; cbn [mbind option_bind]; [|done].
    rewrite IH by lia.
    replace (4 * j + N.of_nat 4) with (4 * N.succ j) by lia.
    by replace (N.succ j + N.of_nat g) with (j + N.of_nat (S g)) by lia.
Qed.

Lemma u8_inner smem dst src (g : nat) : forall j m,
  32 * (j + N.of_nat g) <= 2 ^ 32 ->
  for_loop g j (packed_u8_group LittleEndian smem src) (dst + 32 * j, m)
  = m' ← for_loop (8 * g) (8 * j) (packed_u1_pixel smem dst src) m;
    Some (dst + 32 * (j + N.of_nat g), m').
Proof.
  induction g as [|g IH]; intros j m Hb.
  - cbn. by rewrite N.add_0_r.
  - cbn [for_loop].
    replace (8 * S g)%nat with (8 + 8 * g)%nat by lia.
    rewrite for_loop_add.
    rewrite u8_group_u1 by lia.
    destruct (for_loop 8 (8 * j) _ m) as [m1|]; cbn [mbind option_bind]; [|done].
    rewrite IH by lia.
    replace (8 * j + N.of_nat 8) with (8 * N.succ j) by lia.
    by replace (N.succ j + N.of_nat g) with (j + N.of_nat (S g)) by lia.
Qed.

Lemma u4_eq_u1 dmem dst dstride smem src sstride width height :
  width mod 4 = 0 -> 4 * width <= 2 ^ 32 ->
  copy_alpha_packed_u4 LittleEndian dmem dst dstride smem src sstride width height
  = copy_alpha_packed_u1 dmem dst dstride smem src sstride width height.
Proof.
  intros Hw Hb. unfold copy_alpha_packed_u4, copy_alpha_packed_u1.
  f_equal. apply for_loop_ext. intros _ [[d s] m].
  rewrite N.shiftr_div_pow2. change (2 ^ 2) with 4.
  pose proof (N.Div0.div_mod width 4) as Hd. rewrite Hw in Hd.
  replace (N.to_nat width) with (4 * N.to_nat (width / 4))%nat by lia.
  pose proof (u4_inner smem d s (N.to_nat (width / 4)) 0 m) as E.
  rewrite N.mul_0_r, N.add_0_r in E. rewrite E by lia.
  change (4 * 0) with 0.
  by destruct (for_loop _ 0 (packed_u1_pixel smem d s) m).
Qed.

Lemma u8_eq_u1 dmem dst dstride smem src sstride width height :
  width mod 8 = 0 -> 4 * width <= 2 ^ 32 ->
  copy_alpha_packed_u8 LittleEndian dmem dst dstride smem src sstride width height
  = copy_alpha_packed_u1 dmem dst dstride smem src sstride width height.
Proof.
  intros Hw Hb. unfold copy_alpha_packed_u8, copy_alpha_packed_u1.
  f_equal. apply for_loop_ext. intros _ [[d s] m].
  rewrite N.shiftr_div_pow2. change (2 ^ 3) with 8.
  pose proof (N.Div0.div_mod width 8) as Hd. rewrite Hw in Hd.
  replace (N.to_nat width) with (8 * N.to_nat (width / 8))%nat by lia.
  pose proof (u8_inner smem d s (N.to_nat (width / 8)) 0 m) as E.
  rewrite N.mul_0_r, N.add_0_r in E. rewrite E by lia.
  change (8 * 0) with 0.
  by destruct (for_loop _ 0 (packed_u1_pixel smem d s) m).
Qed.

Lemma land_ones_mod w k : N.land w (N.ones k) = w mod 2 ^ k.
Proof. apply N.land_ones. Qed.


Lemma writes_within_refl W m : writes_within W m m.
Proof. by split. Qed.

Lemma store_writes_within (W : N -> Prop) m0 m a v m' :
  W a -> writes_within W m0 m -> store m a v = Some m' ->
  writes_within W m0 m'.
Proof.
  intros Ha [Hl Hk]. unfold store. case_decide; [|done]. intros [= <-].
  split; [by rewrite length_insert|].
  intros p Hp. rewrite <- Hk by done. unfold load.
  apply list_lookup_insert_ne. intros E. apply Hp.
  by replace p with a by lia.
Qed.

(** An invariant that follows the loop index. *)
Lemma for_loop_inv_idx {St} (P : N -> St -> Prop) n :
  forall j (f : N -> St -> option St) s s',
  (forall k t t', j <= k < j + N.of_nat n ->
                  P k t -> f k t = Some t' -> P (N.succ k) t') ->
  P j s -> for_loop n j f s = Some s' -> P (j + N.of_nat n) s'.
Proof.
  induction n as [|n IH]; intros j f s s' Hf Hs; cbn [for_loop].
  - intros [= <-]. by rewrite N.add_0_r.
  - destruct (f j s) as [s1|] eqn:E; cbn [mbind option_bind]; [|done].
    intros Hloop.
    replace (j + N.of_nat (S n)) with (N.succ j + N.of_nat n) by lia.
    eapply IH; [|eapply Hf; [|exact Hs|exact E]; lia|exact Hloop].
    intros k t t' Hk. apply Hf. lia.
Qed.

Lemma guint_mul4_le j : exists j', j' <= j /\ guint (j * 4) = 4 * j'.
Proof.
  unfold guint. exists ((j * 4) mod 2 ^ 32 / 4).
  pose proof (N.Div0.div_mod ((j * 4) mod 2 ^ 32) 4) as H.
  pose proof (N.Div0.mod_le (j * 4) (2 ^ 32)) as Hle.
  assert (((j * 4) mod 2 ^ 32) mod 4 = 0) as E; [|lia].
  change (2 ^ 32) with (4 * 2 ^ 30).
  rewrite N.Div0.mod_mul_r.
  replace (4 * ((j * 4 / 4) mod 2 ^ 30)) with (((j * 4 / 4) mod 2 ^ 30) * 4) by lia.
  rewrite N.Div0.mod_add. rewrite N.Div0.mod_mod. apply N.Div0.mod_mul.
Qed.

Section Footprint.
Variables (dst ds w h : N) (dmem smem : list byte).

Local Abbreviation W := (alpha_byte_offset dst ds w h).

Lemma alpha_offset_in_row i j :
  i < h -> j < w -> W (dst + i * ds + 4 * j).
Proof. intros. by exists i, j. Qed.

Lemma u1_pixel_writes_within i src j m m' :
  i < h -> j < w -> writes_within W dmem m ->
  packed_u1_pixel smem (dst + i * ds) src j m = Some m' ->
  writes_within W dmem m'.
Proof.
  intros Hi Hj Hk. unfold packed_u1_pixel.
  destruct (load smem (src + j)) as [b|]; cbn [mbind option_bind]; [|done].
  apply store_writes_within; [|done].
  destruct (guint_mul4_le j) as (j' & Hj' & ->).
  apply alpha_offset_in_row; lia.
Qed.

(** Peel the stores of a group off the hypothesis [H], carrying the
    footprint along. *)
Ltac step_puts H :=
  repeat match type of H with
    | context [put_low ?mem ?a ?v] =>
        let E := fresh "E" in
        destruct (put_low mem a v) as [?m|] eqn:E;
        cbn [mbind option_bind] in H; [|done];
        unfold put_low in E; eapply store_writes_within in E;
        [| |eassumption]
    end.

Lemma u4_group_writes_within bo i src g m s' :
  i < h -> 4 * g + 3 < w -> writes_within W dmem m ->
  packed_u4_group bo smem src g (dst + i * ds + 16 * g, m) = Some s' ->
  s'.1 = dst + i * ds + 16 * N.succ g /\ writes_within W dmem s'.2.
Proof.
  intros Hi Hg Hk. unfold packed_u4_group.
  destruct (load_word bo 4 smem _) as [c|]; cbn [mbind option_bind]; [|done].
  intros H. step_puts H.
  - injection H as <-. cbn. split; [lia|done].
  - replace (dst + i * ds + 16 * g + 12) with (dst + i * ds + 4 * (4 * g + 3)) by lia.
    apply alpha_offset_in_row; lia.
  - replace (dst + i * ds + 16 * g + 8) with (dst + i * ds + 4 * (4 * g + 2)) by lia.
    apply alpha_offset_in_row; lia.
  - replace (dst + i * ds + 16 * g + 4) with (dst + i * ds + 4 * (4 * g + 1)) by lia.
    apply alpha_offset_in_row; lia.
  - replace (dst + i * ds + 16 * g) with (dst + i * ds + 4 * (4 * g)) by lia.
    apply alpha_offset_in_row; lia.
Qed.

Lemma u8_group_writes_within bo i src g m s' :
  i < h -> 8 * g + 7 < w -> writes_within W dmem m ->
  packed_u8_group bo smem src g (dst + i * ds + 32 * g, m) = Some s' ->
  s'.1 = dst + i * ds + 32 * N.succ g /\ writes_within W dmem s'.2.
Proof.
  intros Hi Hg Hk. unfold packed_u8_group.
  destruct (load_word bo 8 smem _) as [c|]; cbn [mbind option_bind]; [|done].
  intros H. step_puts H.
  - injection H as <-. cbn. split; [lia|done].
  - replace (dst + i * ds + 32 * g + 28) with (dst + i * ds + 4 * (8 * g + 7)) by lia.
    apply alpha_offset_in_row; lia.
  - replace (dst + i * ds + 32 * g + 24) with (dst + i * ds + 4 * (8 * g + 6)) by lia.
    apply alpha_offset_in_row; lia.
  - replace (dst + i * ds + 32 * g + 20) with (dst + i * ds + 4 * (8 * g + 5)) by lia.
    apply alpha_offset_in_row; lia.
  - replace (dst + i * ds + 32 * g + 16) with (dst + i * ds + 4 * (8 * g + 4)) by lia.
    apply alpha_offset_in_row; lia.
  - replace (dst + i * ds + 32 * g + 12) with (dst + i * ds + 4 * (8 * g + 3)) by lia.
    apply alpha_offset_in_row; lia.
  - replace (dst + i * ds + 32 * g + 8) with (dst + i * ds + 4 * (8 * g + 2)) by lia.
    apply alpha_offset_in_row; lia.
  - replace (dst + i * ds + 32 * g + 4) with (dst + i * ds + 4 * (8 * g + 1)) by lia.
    apply alpha_offset_in_row; lia.
  - replace (dst + i * ds + 32 * g) with (dst + i * ds + 4 * (8 * g)) by lia.
    apply alpha_offset_in_row; lia.
Qed.

Lemma u1_writes_within sstride src out :
  copy_alpha_packed_u1 dmem dst ds smem src sstride w h = Some out ->
  writes_within W dmem out.
Proof.
  unfold copy_alpha_packed_u1.
  destruct (for_loop (N.to_nat h) _ _ _) as [s|] eqn:E;
    cbn [mbind option_bind]; [|done].
  intros [= <-].
  apply (for_loop_inv_idx (at_row W dst ds dmem)) in E as [_ ?]; [done| |].
  - intros i [[d s0] m] t' Hi [Hd Hk]. cbn in Hd, Hk. subst d.
    destruct (for_loop _ _ (packed_u1_pixel _ _ _) _) as [m1|] eqn:E1;
      cbn [mbind option_bind]; [|done].
    intros [= Ht]; subst t'. split; cbn; [lia|].
    apply (for_loop_inv_idx (fun _ => writes_within W dmem)) in E1; [done| |done].
    intros j t t1 Hj. apply u1_pixel_writes_within; lia.
  - split; cbn; [lia|apply writes_within_refl].
Qed.

Lemma u4_writes_within bo sstride src out :
  copy_alpha_packed_u4 bo dmem dst ds smem src sstride w h = Some out ->
  writes_within W dmem out.
Proof.
  unfold copy_alpha_packed_u4.
  destruct (for_loop (N.to_nat h) _ _ _) as [s|] eqn:E;
    cbn [mbind option_bind]; [|done].
  intros [= <-].
  apply (for_loop_inv_idx (at_row W dst ds dmem)) in E as [_ ?]; [done| |].
  - intros i [[d s0] m] t' Hi [Hd Hk]. cbn in Hd, Hk. subst d.
    destruct (for_loop _ _ (packed_u4_group _ _ _) _) as [r|] eqn:E1;
      cbn [mbind option_bind]; [|done].
    intros [= Ht]; subst t'. split; cbn; [lia|].
    apply (for_loop_inv_idx
             (fun g t => t.1 = dst + i * ds + 16 * g
                         /\ writes_within W dmem t.2)) in E1 as [_ ?];
      [done| |by split; cbn; [lia|]].
    intros g [dd t] t1 Hg [Hdd Hkt]. cbn in Hdd, Hkt. subst dd.
    apply u4_group_writes_within; [lia| |done].
    rewrite N2Nat.id, N.shiftr_div_pow2 in Hg. change (2 ^ 2) with 4 in Hg.
    pose proof (N.Div0.mul_div_le w 4).
    lia.
  - split; cbn; [lia|apply writes_within_refl].
Qed.

Lemma u8_writes_within bo sstride src out :
  copy_alpha_packed_u8 bo dmem dst ds smem src sstride w h = Some out ->
  writes_within W dmem out.
Proof.
  unfold copy_alpha_packed_u8.
  destruct (for_loop (N.to_nat h) _ _ _) as [s|] eqn:E;
    cbn [mbind option_bind]; [|done].
  intros [= <-].
  apply (for_loop_inv_idx (at_row W dst ds dmem)) in E as [_ ?]; [done| |].
  - intros i [[d s0] m] t' Hi [Hd Hk]. cbn in Hd, Hk. subst d.
    destruct (for_loop _ _ (packed_u8_group _ _ _) _) as [r|] eqn:E1;
      cbn [mbind option_bind]; [|done].
    intros [= Ht]; subst t'. split; cbn; [lia|].
    apply (for_loop_inv_idx
             (fun g t => t.1 = dst + i * ds + 32 * g
                         /\ writes_within W dmem t.2)) in E1 as [_ ?];
      [done| |by split; cbn; [lia|]].
    intros g [dd t] t1 Hg [Hdd Hkt]. cbn in Hdd, Hkt. subst dd.
    apply u8_group_writes_within; [lia| |done].
    rewrite N2Nat.id, N.shiftr_div_pow2 in Hg. change (2 ^ 3) with 8 in Hg.
    pose proof (N.Div0.mul_div_le w 8).
    lia.
  - split; cbn; [lia|apply writes_within_refl].
Qed.

End Footprint.

(** In a plane whose stride is a multiple of 4 or whose rows do not overlap,
    bytes 1, 2 and 3 of a pixel are not byte 0 of any pixel. *)
Lemma colour_byte_not_alpha ds w h i j k :
  ds mod 4 = 0 \/ 4 * w <= ds ->
  j < w -> 1 <= k <= 3 ->
  ~ alpha_byte_offset 0 ds w h (i * ds + 4 * j + k).
Proof.
  intros Hds Hj Hk (i' & j' & Hi' & Hj' & E).
  destruct Hds as [Hmod | Hrow].
  - pose proof (N.Div0.div_mod ds 4) as Hd. rewrite Hmod in Hd.
    assert ((i * ds + 4 * j + k) mod 4 = (0 + i' * ds + 4 * j') mod 4) as Em
      by by rewrite E.
    replace (i * ds + 4 * j + k) with (k + (i * (ds / 4) + j) * 4) in Em by lia.
    replace (0 + i' * ds + 4 * j') with (0 + (i' * (ds / 4) + j') * 4) in Em by lia.
    rewrite !N.Div0.mod_add in Em.
    rewrite N.mod_small in Em by lia. cbn in Em. lia.
  - assert (i = i') as <-; [|lia].
    destruct (N.lt_trichotomy i i') as [Hlt | [-> | Hgt]]; [|done|].
    + assert ((i + 1) * ds <= i' * ds) by (apply N.mul_le_mono_r; lia). lia.
    + assert ((i' + 1) * ds <= i * ds) by (apply N.mul_le_mono_r; lia). lia.
Qed.

(** C9. Whenever [copy_alpha_packed] returns, the output plane has the
    length it had and differs from what it was at most at byte 0 of the
    pixels of the frame; in a plane whose stride is a multiple of the 4-byte
    pixel, or at least 4 times the width, bytes 1, 2 and 3 of every pixel
    are therefore what they were. *)
Theorem copy_alpha_packed_writes_alpha_only bo dp ds sp ss w h out :
  copy_alpha_packed bo dp ds sp ss w h = Some out ->
  length out = length dp /\
  (forall p, (forall i j, i < h -> j < w -> p <> i * ds + 4 * j) ->
             load out p = load dp p) /\
  (ds mod 4 = 0 \/ 4 * w <= ds ->
   forall i j k, j < w -> 1 <= k <= 3 ->
     load out (i * ds + 4 * j + k) = load dp (i * ds + 4 * j + k)).
Proof.
  intros H.
  assert (writes_within (alpha_byte_offset 0 ds w h) dp out) as [Hl Hk].
  { unfold copy_alpha_packed in H.
    destruct (negb _); [by apply u1_writes_within in H|].
    destruct (negb _);
      [by apply u4_writes_within in H|by apply u8_writes_within in H]. }
  split; [done|]. split.
  - intros p Hp. apply Hk. intros (i & j & Hi & Hj & E).
    apply (Hp i j Hi Hj). lia.
  - intros Hds i j k Hj Hk3. apply Hk. by apply colour_byte_not_alpha.
Qed.

Lemma load_in_range (m : list byte) a :
  a < N.of_nat (length m) -> exists b, load m a = Some b.
Proof.
  intros H. unfold load. apply lookup_lt_is_Some. lia.
Qed.

Lemma store_in_range (m : list byte) a v :
  a < N.of_nat (length m) -> store m a v = Some (<[N.to_nat a := v]> m).
Proof. intros H. unfold store. case_decide; [done|lia]. Qed.

Lemma load_insert (m : list byte) a v p :
  a < N.of_nat (length m) ->
  load (<[N.to_nat a := v]> m) p = if decide (p = a) then Some v else load m p.
Proof.
  intros H. unfold load. case_decide as E.
  - subst. apply list_lookup_insert_eq. lia.
  - apply list_lookup_insert_ne. lia.
Qed.

(** The copy loop of [memcpy], started at index [j]. *)
Lemma memcpy_loop smem src dst (n : nat) : forall j m,
  dst + j + N.of_nat n <= N.of_nat (length m) ->
  src + j + N.of_nat n <= N.of_nat (length smem) ->
  exists m',
    for_loop n j (fun k m => b ← load smem (src + k); store m (dst + k) b) m
    = Some m' /\
    length m' = length m /\
    forall p, load m' p =
      if decide (dst + j <= p < dst + j + N.of_nat n)
      then load smem (src + (p - dst)) else load m p.
Proof.
  induction n as [|n IH]; intros j m Hd Hs.
  - exists m. cbn. repeat split. intros p. case_decide; [lia|done].
  - cbn [for_loop].
    destruct (load_in_range smem (src + j)) as [b Hb]; [lia|].
    rewrite Hb. cbn [mbind option_bind].
    rewrite store_in_range by lia.
    destruct (IH (N.succ j) (<[N.to_nat (dst + j) := b]> m)) as (m' & E & Hl & Hp).
    { rewrite length_insert. lia. }
    { lia. }
    exists m'. split; [done|]. rewrite Hl, length_insert. split; [done|].
    intros p. rewrite Hp, load_insert by lia.
    repeat case_decide; try lia; try done.
    subst p. rewrite <- Hb. f_equal. lia.
Qed.

Lemma memcpy_spec dmem dst smem src n :
  dst + n <= N.of_nat (length dmem) ->
  src + n <= N.of_nat (length smem) ->
  exists m',
    memcpy dmem dst smem src n = Some m' /\
    length m' = length dmem /\
    forall p, load m' p =
      if decide (dst <= p < dst + n)
      then load smem (src + (p - dst)) else load dmem p.
Proof.
  intros Hd Hs. unfold memcpy.
  destruct (memcpy_loop smem src dst (N.to_nat n) 0 dmem) as (m' & E & Hl & Hp);
    [lia|lia|].
  exists m'. split; [done|]. split; [done|].
  intros p. rewrite Hp. repeat case_decide; try lia; done.
Qed.

(** The row loop of [copy_alpha_planar], started with the row pointers at
    [d] and [s]. *)
Lemma copy_rows_loop sp ds ss w (n : nat) : forall i d s m,
  w <= ds -> w <= ss ->
  d + N.of_nat n * ds <= N.of_nat (length m) ->
  s + N.of_nat n * ss <= N.of_nat (length sp) ->
  exists m' d' s',
    for_loop n i
      (fun _ '(d, s, m) => m' ← memcpy m d sp s w; Some (d + ds, s + ss, m'))
      (d, s, m) = Some (d', s', m') /\
    length m' = length m /\
    (forall p, p < d -> load m' p = load m p) /\
    forall r c, r < N.of_nat n -> c < w ->
      load m' (d + r * ds + c) = load sp (s + r * ss + c).
Proof.
  induction n as [|n IH]; intros i d s m Hwd Hws Hd Hs.
  - exists m, d, s. cbn. repeat split; try done. lia.
  - cbn [for_loop].
    destruct (memcpy_spec m d sp s w) as (m1 & E1 & Hl1 & Hp1); [lia|lia|].
    rewrite E1. cbn [mbind option_bind].
    destruct (IH (N.succ i) (d + ds) (s + ss) m1) as (m' & d' & s' & E & Hl & Hlow & Hpix);
      [done|done|rewrite Hl1; lia|lia|].
    exists m', d', s'. split; [done|]. split; [congruence|]. split.
    + intros p Hp. rewrite Hlow by lia. rewrite Hp1. case_decide; [lia|done].
    + intros r c Hr Hc.
      destruct (decide (r = 0)) as [->|Hr0].
      * rewrite Hlow by lia. rewrite Hp1. case_decide; [|lia].
        f_equal. lia.
      * specialize (Hpix (r - 1) c). 
        replace (d + ds + (r - 1) * ds + c) with (d + r * ds + c) in Hpix by nia.
        replace (s + ss + (r - 1) * ss + c) with (s + r * ss + c) in Hpix by nia.
        apply Hpix; lia.
Qed.

(** C8, amended. For planes that hold [h] rows of their stride and strides
    that are at least the width, [copy_alpha_planar] and the row-by-row copy
    both succeed and agree on the [w] bytes of each of the [h] rows, which
    are those of the source rows. *)
Theorem copy_alpha_planar_rows_agree dp ds sp ss w h :
  w <= ss -> w <= ds ->
  (ss = ds -> h * ss < 2 ^ 32) ->
  h * ss <= N.of_nat (length sp) ->
  h * ds <= N.of_nat (length dp) ->
  exists out ref,
    copy_alpha_planar dp ds sp ss w h = Some out /\
    copy_rows dp ds sp ss w h = Some ref /\
    length out = length dp /\ length ref = length dp /\
    forall i j, i < h -> j < w ->
      load out (i * ds + j) = load sp (i * ss + j) /\
      load ref (i * ds + j) = load sp (i * ss + j).
Proof.
  intros Hws Hwd Hwrap Hs Hd.
  destruct (copy_rows_loop sp ds ss w (N.to_nat h) 0 0 0 dp)
    as (ref & d' & s' & E & Hl & _ & Hpix); [done|done|lia|lia|].
  assert (copy_rows dp ds sp ss w h = Some ref) as Eref.
  { unfold copy_rows. by rewrite E. }
  assert (forall i j, i < h -> j < w ->
            load ref (i * ds + j) = load sp (i * ss + j)) as Href.
  { intros i j Hi Hj. apply (Hpix i j); lia. }
  unfold copy_alpha_planar. destruct (N.eqb_spec ss ds) as [->|Hne].
  - rewrite guint_small by auto.
    destruct (memcpy_spec dp 0 sp 0 (h * ds)) as (out & E1 & Hl1 & Hp1); [lia|lia|].
    exists out, ref. repeat split; try done.
    + rewrite Hp1. case_decide as Hin; [f_equal; lia|]. nia.
    + by apply Href.
  - exists ref, ref. repeat split; try done; by apply Href.
Qed.

(** C8 as stated fails: with equal strides larger than the width the bulk
    copy also overwrites the padding after each row, which the row-by-row
    copy leaves alone. *)
Lemma copy_alpha_planar_padding_differs :
  let dp := bytes_of [0; 0; 0; 0] in
  let sp := bytes_of [1; 2; 3; 4] in
  copy_alpha_planar dp 2 sp 2 1 2 = Some (bytes_of [1; 2; 3; 4]) /\
  copy_rows dp 2 sp 2 1 2 = Some (bytes_of [1; 0; 3; 0]) /\
  copy_alpha_planar dp 2 sp 2 1 2 <> copy_rows dp 2 sp 2 1 2.
Proof. repeat split; try reflexivity. discriminate. Qed.


(** ** What the packed compositor writes *)

(** The pixel loop of [copy_alpha_packed_u1], started at pixel [j]. *)
Lemma u1_pixel_loop smem d s (n : nat) : forall j m,
  4 * (j + N.of_nat n) <= 2 ^ 32 ->
  d + 4 * (j + N.of_nat n) <= N.of_nat (length m) ->
  s + j + N.of_nat n <= N.of_nat (length smem) ->
  exists m',
    for_loop n j (packed_u1_pixel smem d s) m = Some m' /\
    length m' = length m /\
    (forall k, j <= k < j + N.of_nat n ->
               load m' (d + 4 * k) = load smem (s + k)) /\
    (forall p, (forall k, j <= k < j + N.of_nat n -> p <> d + 4 * k) ->
               load m' p = load m p).
Proof.
  induction n as [|n IH]; intros j m Hw Hd Hs.
  - exists m. cbn. repeat split; try done. lia.
  - cbn [for_loop].
    change (packed_u1_pixel smem d s j m)
      with (b ← load smem (s + j); store m (d + guint (j * 4)) b).
    destruct (load_in_range smem (s + j)) as [b Hb]; [lia|].
    rewrite Hb. cbn [mbind option_bind].
    rewrite guint_small by lia.
    rewrite store_in_range by lia.
    destruct (IH (N.succ j) (<[N.to_nat (d + j * 4) := b]> m))
      as (m' & E & Hl & Hpix & Hrest); [lia|rewrite length_insert; lia|lia|].
    exists m'. split; [done|]. rewrite Hl, length_insert. split; [done|]. split.
    + intros k Hk. destruct (decide (k = j)) as [->|Hne].
      * rewrite Hrest by (intros; lia). rewrite load_insert by lia.
        case_decide; [done|lia].
      * apply Hpix. lia.
    + intros p Hp. rewrite Hrest by (intros; apply Hp; lia).
      rewrite load_insert by lia. case_decide as E'; [|done].
      exfalso. apply (Hp j); lia.
Qed.

(** The row loop of [copy_alpha_packed_u1], started with the row pointers
    at [d] and [s]. *)
Lemma u1_row_loop smem ds ss w (n : nat) : forall i d s m,
  4 * w <= ds -> w <= ss -> 4 * w <= 2 ^ 32 ->
  d + N.of_nat n * ds <= N.of_nat (length m) ->
  s + N.of_nat n * ss <= N.of_nat (length smem) ->
  exists t,
    for_loop n i
      (fun _ '(dst, src, m) =>
         m' ← for_loop (N.to_nat w) 0 (packed_u1_pixel smem dst src) m;
         Some (dst + ds, src + ss, m'))
      (d, s, m) = Some t /\
    length t.2 = length m /\
    (forall p, p < d -> load t.2 p = load m p) /\
    forall r c, r < N.of_nat n -> c < w ->
      load t.2 (d + r * ds + 4 * c) = load smem (s + r * ss + c).
Proof.
  induction n as [|n IH]; intros i d s m Hwd Hws Hw Hd Hs.
  - exists (d, s, m). cbn. repeat split; try done. lia.
  - cbn [for_loop].
    destruct (u1_pixel_loop smem d s (N.to_nat w) 0 m)
      as (m1 & E1 & Hl1 & Hpix1 & Hrest1); [lia|lia|lia|].
    rewrite E1. cbn [mbind option_bind].
    destruct (IH (N.succ i) (d + ds) (s + ss) m1)
      as (t & E & Hl & Hlow & Hpix); [done|done|done|rewrite Hl1; lia|lia|].
    exists t. split; [done|]. split; [congruence|]. split.
    + intros p Hp. rewrite Hlow by lia. apply Hrest1. intros; lia.
    + intros r c Hr Hc.
      destruct (decide (r = 0)) as [->|Hr0].
      * rewrite Hlow by lia.
        replace (d + 0 * ds + 4 * c) with (d + 4 * c) by lia.
        replace (s + 0 * ss + c) with (s + c) by lia.
        apply Hpix1. lia.
      * specialize (Hpix (r - 1) c).
        replace (d + ds + (r - 1) * ds + 4 * c) with (d + r * ds + 4 * c)
          in Hpix by nia.
        replace (s + ss + (r - 1) * ss + c) with (s + r * ss + c)
          in Hpix by nia.
        apply Hpix; lia.
Qed.

(** On planes that hold [h] rows of their stride, with rows of [w] pixels
    that fit the strides, [copy_alpha_packed] returns and byte 0 of every
    pixel of the output is the alpha value of that pixel. *)
Lemma copy_alpha_packed_copies_alpha dp ds sp ss w h :
  4 * w <= ds -> w <= ss -> 4 * w <= 2 ^ 32 ->
  h * ds <= N.of_nat (length dp) ->
  h * ss <= N.of_nat (length sp) ->
  exists out,
    copy_alpha_packed LittleEndian dp ds sp ss w h = Some out /\
    forall i j, i < h -> j < w ->
      load out (i * ds + 4 * j) = load sp (i * ss + j).
Proof.
  intros Hwd Hws Hw Hd Hs.
  destruct (u1_row_loop sp ds ss w (N.to_nat h) 0 0 0 dp)
    as (t & E & _ & _ & Hpix); [done|done|done|lia|lia|].
  exists t.2. split.
  - assert (copy_alpha_packed_u1 dp 0 ds sp 0 ss w h = Some t.2) as Eu1.
    { unfold copy_alpha_packed_u1. by rewrite E. }
    unfold copy_alpha_packed.
    change 3 with (N.ones 2). change 7 with (N.ones 3).
    rewrite !land_ones_mod. change (2 ^ 2) with 4. change (2 ^ 3) with 8.
    destruct (N.eqb_spec (w mod 4) 0) as [H4|H4]; cbn [negb]; [|done].
    destruct (N.eqb_spec (w mod 8) 0) as [H8|H8]; cbn [negb].
    + by rewrite u8_eq_u1.
    + by rewrite u4_eq_u1.
  - intros i j Hi Hj. apply (Hpix i j); lia.
Qed.
(** On a big-endian host the batch loops store the four or eight alpha
    values of a group in reverse order. *)
Lemma copy_alpha_packed_big_endian_reverses :
  copy_alpha_packed BigEndian (bytes_of (repeat 0 16)) 16
    (bytes_of [1; 2; 3; 4]) 4 4 1
  = Some (bytes_of [4;0;0;0; 3;0;0;0; 2;0;0;0; 1;0;0;0]).
Proof. reflexivity. Qed.



Lemma copy_alpha_packed_writes_alpha_only_witness :
  let dp := bytes_of [9;1;2;3; 9;4;5;6; 9;7;8;9; 9;10;11;12] in
  let out := bytes_of [20;1;2;3; 21;4;5;6; 22;7;8;9; 23;10;11;12] in
  copy_alpha_packed LittleEndian dp 8 (bytes_of [20; 21; 22; 23]) 2 2 2
  = Some out /\
  length out = length dp /\
  (forall p, (forall i j, i < 2 -> j < 2 -> p <> i * 8 + 4 * j) ->
             load out p = load dp p) /\
  (8 mod 4 = 0 \/ 4 * 2 <= 8 ->
   forall i j k, j < 2 -> 1 <= k <= 3 ->
     load out (i * 8 + 4 * j + k) = load dp (i * 8 + 4 * j + k)).
Proof.
  cbv zeta. split; [reflexivity|].
  apply (copy_alpha_packed_writes_alpha_only LittleEndian
           (bytes_of [9;1;2;3; 9;4;5;6; 9;7;8;9; 9;10;11;12]) 8
           (bytes_of [20; 21; 22; 23]) 2 2 2
           (bytes_of [20;1;2;3; 21;4;5;6; 22;7;8;9; 23;10;11;12])).
  reflexivity.
Defined.

Lemma copy_alpha_planar_rows_agree_witness :
  let dp := bytes_of (repeat 0 8) in
  let sp := bytes_of [1;2;3;99; 4;5;6;99] in
  exists out ref,
    copy_alpha_planar dp 4 sp 4 3 2 = Some out /\
    copy_rows dp 4 sp 4 3 2 = Some ref /\
    length out = length dp /\ length ref = length dp /\
    forall i j, i < 2 -> j < 3 ->
      load out (i * 4 + j) = load sp (i * 4 + j) /\
      load ref (i * 4 + j) = load sp (i * 4 + j).
Proof.
  cbv zeta.
  apply (copy_alpha_planar_rows_agree (bytes_of (repeat 0 8)) 4
           (bytes_of [1;2;3;99; 4;5;6;99]) 4 3 2);
    [lia|lia|intros _; reflexivity|by vm_compute|by vm_compute].
Defined.

(** * The stream synchronizer *)

Local Close Scope N_scope.
Local Open Scope Z_scope.

Section ChainProofs.
Context `{GstCore}.

Lemma pop_alpha_some thiz a :
  alpha_buffer thiz = Some a ->
  gst_alpha_mask_pop_alpha thiz = ([BufferUnref a], set_alpha_buffer thiz None).
Proof. intros E. unfold gst_alpha_mask_pop_alpha. by rewrite E. Qed.


Lemma GstFormat_eqb_eq a b : GstFormat_eqb a b = true <-> a = b.
Proof. destruct a, b; cbn; split; congruence. Qed.

Lemma clock_time_is_valid t :
  GST_CLOCK_TIME_IS_VALID t = true <-> t <> GST_CLOCK_TIME_NONE.
Proof.
  unfold GST_CLOCK_TIME_IS_VALID. rewrite negb_true_iff, Z.eqb_neq. done.
Qed.


(** C3, amended. A video buffer whose running-time end is at or before the
    running-time start of the held alpha buffer, when that alpha buffer has
    valid timing and is not too old, is dropped: nothing is pushed, the
    chain returns OK and the alpha buffer stays in the slot. *)
Theorem video_chain_pass_premature thiz buffer a start stop clip_start :
  video_flushing thiz = false -> video_eos thiz = false ->
  alpha_buffer thiz = Some a ->
  valid_alpha_time a = true ->
  vid_running_time thiz start < alpha_running_time_end thiz a ->
  vid_running_time_end thiz stop <= alpha_running_time thiz a ->
  video_chain_pass thiz buffer start stop clip_start
  = Return GST_FLOW_OK [BufferUnref buffer] (update_position thiz clip_start)
  /\ alpha_buffer (update_position thiz clip_start) = Some a
  /\ forall env,
       video_chain_from_wait env thiz buffer start stop clip_start
       = Returned GST_FLOW_OK [BufferUnref buffer]
           (update_position thiz clip_start).
Proof.
  intros Hf He Ha Hv Hnew Hfut.
  assert (video_chain_pass thiz buffer start stop clip_start
          = Return GST_FLOW_OK [BufferUnref buffer]
              (update_position thiz clip_start)) as Hpass.
  { unfold video_chain_pass, alpha_too_old, alpha_in_future.
    rewrite Hf, He, Ha, Hv. cbn.
    apply Z.leb_le in Hfut. rewrite Hfut.
    apply Z.leb_gt in Hnew. by rewrite Hnew. }
  split; [done|]. split; [done|].
  intros [|f env]; cbn; unfold video_chain_alone; by rewrite Hpass.
Qed.

(** C1, amended. When the held alpha buffer is neither too old nor in the
    future, the run calls [gst_alpha_mask_push_frame] once on this video
    buffer with the alpha buffer still in the slot, which pushes exactly one
    frame pairing the two when the output format carries alpha and the
    frames map; afterwards the alpha buffer is released if its timing is
    invalid or its running-time end is at or before the running-time end of
    the video buffer, and kept otherwise. *)
Theorem video_chain_pass_overlap thiz buffer a start stop clip_start :
  video_flushing thiz = false -> video_eos thiz = false ->
  alpha_buffer thiz = Some a ->
  alpha_too_old thiz a start = false ->
  alpha_in_future thiz a stop = false ->
  exists eff thiz',
    video_chain_pass thiz buffer start stop clip_start
    = Return (gst_alpha_mask_push_frame thiz buffer).2
        ((gst_alpha_mask_push_frame thiz buffer).1 ++ eff)
        (update_position thiz' clip_start)
    /\ (forall env,
          video_chain_from_wait env thiz buffer start stop clip_start
          = Returned (gst_alpha_mask_push_frame thiz buffer).2
              ((gst_alpha_mask_push_frame thiz buffer).1 ++ eff)
              (update_position thiz' clip_start))
    /\ (can_composite thiz buffer a ->
        exists o, (gst_alpha_mask_push_frame thiz buffer).1 = [PadPush o]
                  /\ pairs o buffer a)
    /\ (valid_alpha_time a = false
        \/ alpha_running_time_end thiz a <= vid_running_time_end thiz stop ->
        eff = [BufferUnref a] /\ thiz' = set_alpha_buffer thiz None)
    /\ (valid_alpha_time a = true
        /\ vid_running_time_end thiz stop < alpha_running_time_end thiz a ->
        eff = [] /\ thiz' = thiz).
Proof.
  intros Hf He Ha Hold Hfut.
  set (release := negb (valid_alpha_time a) || alpha_consumed thiz a stop).
  exists (if release then [BufferUnref a] else []),
         (if release then set_alpha_buffer thiz None else thiz).
  assert (video_chain_pass thiz buffer start stop clip_start
          = Return (gst_alpha_mask_push_frame thiz buffer).2
              ((gst_alpha_mask_push_frame thiz buffer).1
               ++ (if release then [BufferUnref a] else []))
              (update_position
                 (if release then set_alpha_buffer thiz None else thiz)
                 clip_start)) as Hpass.
  { unfold video_chain_pass. rewrite Hf, He, Ha, Hold, Hfut.
    destruct (gst_alpha_mask_push_frame thiz buffer) as [pushed ret].
    fold release. cbn [fst snd].
    destruct release; [by rewrite (pop_alpha_some _ _ Ha)|done]. }
  split; [done|]. split; [|split; [|split]].
  - intros [|f env]; cbn; unfold video_chain_alone; by rewrite Hpass.
  - intros (Hfmt & Hin & Hout & Halpha).
    unfold gst_alpha_mask_push_frame, gst_alpha_mask_convert.
    rewrite Ha, Hin, Hout, Halpha. cbn.
    destruct Hfmt as [-> | [-> | ->]].
    + destruct (iformat thiz); cbn; eexists; (split; [done|]);
        unfold pairs; auto.
    + eexists; split; [done|]. unfold pairs; auto.
    + eexists; split; [done|]. unfold pairs; auto.
  - unfold release, alpha_consumed. intros [Hv | Hle].
    + by rewrite Hv.
    + apply Z.leb_le in Hle. rewrite Hle.
      by destruct (valid_alpha_time a).
  - unfold release, alpha_consumed. intros [Hv Hlt].
    apply Z.leb_gt in Hlt. by rewrite Hv, Hlt.
Qed.

(** C4. With the slot empty, the run pushes the video buffer as it is and
    returns without waiting exactly when the alpha stream is at
    end-of-stream or segment-done, or its segment is in TIME format and the
    running time of the video buffer is below the valid running time of the
    alpha segment's start or position; the chain then returns with that one
    push whatever happens elsewhere.  In every other case the run waits;
    with nothing to wake it the chain never returns, and each time it is
    woken the whole decision is run again on the element as it is then: the
    chain returns what that run returns, waits again when that run waits,
    and goes round once more after a too old alpha buffer. *)
Theorem video_chain_pass_empty_slot thiz buffer start stop clip_start :
  video_flushing thiz = false -> video_eos thiz = false ->
  alpha_buffer thiz = None ->
  (no_need_to_wait thiz buffer <->
   video_chain_pass thiz buffer start stop clip_start
   = Return (gst_pad_push (Unmodified buffer)) [PadPush (Unmodified buffer)]
       (update_position thiz clip_start))
  /\ (no_need_to_wait thiz buffer ->
      forall env,
        video_chain_from_wait env thiz buffer start stop clip_start
        = Returned (gst_pad_push (Unmodified buffer))
            [PadPush (Unmodified buffer)] (update_position thiz clip_start))
  /\ (~ no_need_to_wait thiz buffer ->
      video_chain_pass thiz buffer start stop clip_start = Block
      /\ (forall f env,
            video_chain_from_wait (f :: env) thiz buffer start stop clip_start
            = video_chain_from_wait env (f thiz) buffer start stop clip_start)
      /\ video_chain_from_wait [] thiz buffer start stop clip_start
         = Stalled [] thiz
      /\ (forall (f : interference) env ret eff thiz',
            video_chain_pass (f thiz) buffer start stop clip_start
            = Return ret eff thiz' ->
            video_chain_from_wait (f :: env) thiz buffer start stop clip_start
            = Returned ret eff thiz')
      /\ (forall f : interference,
            video_chain_pass (f thiz) buffer start stop clip_start = Block ->
            video_chain_from_wait [f] thiz buffer start stop clip_start
            = Stalled [] (f thiz)
            /\ forall g env,
                 video_chain_from_wait (f :: g :: env) thiz buffer
                   start stop clip_start
                 = video_chain_from_wait env (g (f thiz)) buffer
                     start stop clip_start)
      /\ (forall (f : interference) eff thiz',
            video_chain_pass (f thiz) buffer start stop clip_start
            = Retry eff thiz' ->
            forall g env,
              video_chain_from_wait (f :: g :: env) thiz buffer
                start stop clip_start
              = with_effects eff
                  (video_chain_from_wait env (g thiz') buffer
                     start stop clip_start))).
Proof.
  intros Hf He Ha.
  assert (need_to_wait thiz buffer = false <-> no_need_to_wait thiz buffer)
    as Hw.
  { unfold need_to_wait, no_need_to_wait.
    destruct (alpha_eos thiz), (alpha_segment_done thiz); cbn;
      try (split; [auto|intros _; by repeat case_match]).
    destruct (GstFormat_eqb _ _) eqn:Efmt.
    - apply GstFormat_eqb_eq in Efmt.
      match goal with
      | |- (if ?c then _ else _) = _ <-> _ => destruct c eqn:Ec
      end.
      + split; [intros _|done]. right; right. split; [done|].
        apply orb_true_iff in Ec as [Ec|Ec];
          apply andb_true_iff in Ec as [Ev Elt];
          apply clock_time_is_valid in Ev; apply Z.ltb_lt in Elt; auto.
      + split; [done|]. intros [?|[?|[_ Hc]]]; try done.
        apply orb_false_iff in Ec as [Ec1 Ec2].
        destruct Hc as [[Hv Hlt]|[Hv Hlt]];
          apply clock_time_is_valid in Hv; apply Z.ltb_lt in Hlt.
        * by rewrite Hv, Hlt in Ec1.
        * by rewrite Hv, Hlt in Ec2.
    - split; [done|]. intros [?|[?|[Hfmt _]]]; try done.
      apply GstFormat_eqb_eq in Hfmt. congruence. }
  assert (forall r, video_chain_pass thiz buffer start stop clip_start = r ->
            r = if need_to_wait thiz buffer then Block
                else Return (gst_pad_push (Unmodified buffer))
                       [PadPush (Unmodified buffer)]
                       (update_position thiz clip_start)) as Hpass.
  { intros r <-. unfold video_chain_pass. by rewrite Hf, He, Ha. }
  specialize (Hpass _ eq_refl).
  split; [|split].
  - rewrite <- Hw. rewrite Hpass.
    destruct (need_to_wait thiz buffer); split; done.
  - intros Hn. rewrite <- Hw in Hn. rewrite Hn in Hpass.
    intros [|f env]; cbn; unfold video_chain_alone; by rewrite Hpass.
  - intros Hn. rewrite <- Hw in Hn.
    destruct (need_to_wait thiz buffer) eqn:E; [|done].
    split; [done|]. split; [|split; [|split; [|split]]].
    + intros f env. cbn. by rewrite Hpass.
    + cbn. unfold video_chain_alone. by rewrite Hpass.
    + intros f env ret eff thiz' Hp. cbn [video_chain_from_wait].
      rewrite Hpass.
      destruct env; cbn; unfold video_chain_alone; by rewrite Hp.
    + intros f Hp. split.
      * cbn. rewrite Hpass. unfold video_chain_alone. by rewrite Hp.
      * intros g env. cbn [video_chain_from_wait]. by rewrite Hpass, Hp.
    + intros f eff thiz' Hp g env. cbn [video_chain_from_wait].
      by rewrite Hpass, Hp.
Qed.

(** The guard of the video chain: a buffer with no duration that starts
    before the segment is discarded, whatever [gst_segment_clip] does. *)
Lemma video_chain_rejects_open_ended_before_segment env thiz buffer :
  GST_BUFFER_TIMESTAMP_IS_VALID buffer = true ->
  GST_BUFFER_DURATION_IS_VALID buffer = false ->
  GST_BUFFER_TIMESTAMP buffer < seg_start (segment thiz) ->
  gst_alpha_mask_video_chain env thiz buffer
  = Returned GST_FLOW_OK [BufferUnref buffer] thiz.
Proof.
  intros Ht Hd Hlt. unfold gst_alpha_mask_video_chain.
  rewrite Ht, Hd. cbn. rewrite Z.eqb_refl.
  apply Z.ltb_lt in Hlt. by rewrite Hlt.
Qed.

(** An accepted video buffer enters the decision loop with its stamps
    rewritten to the clipped interval, and with the locals [start] and
    [stop] as they were before clipping. *)
Lemma video_chain_accepted env thiz buffer clip_start clip_stop :
  let start := GST_BUFFER_TIMESTAMP buffer in
  let stop :=
    if GST_BUFFER_DURATION_IS_VALID buffer
    then guint64 (start + GST_BUFFER_DURATION buffer)
    else GST_CLOCK_TIME_NONE in
  GST_BUFFER_TIMESTAMP_IS_VALID buffer = true ->
  (stop =? GST_CLOCK_TIME_NONE) && (start <? seg_start (segment thiz)) = false ->
  gst_segment_clip (segment thiz) GST_FORMAT_TIME start stop
  = Some (clip_start, clip_stop) ->
  gst_alpha_mask_video_chain env thiz buffer
  = video_chain_from_wait env thiz
      (fix_up_stamps buffer start stop clip_start clip_stop)
      start (estimate_stop thiz start stop) clip_start.
Proof.
  intros start stop Ht Hg Hc. unfold gst_alpha_mask_video_chain.
  rewrite Ht. cbn [negb]. fold start.
  replace (if negb (GST_BUFFER_DURATION_IS_VALID buffer)
           then GST_CLOCK_TIME_NONE
           else guint64 (start + GST_BUFFER_DURATION buffer)) with stop
    by (unfold stop; by destruct (GST_BUFFER_DURATION_IS_VALID buffer)).
  by rewrite Hg, Hc.
Qed.

Lemma fix_up_stamps_clipped buffer start stop clip_start clip_stop :
  clip_start <> start \/ (stop <> GST_CLOCK_TIME_NONE /\ clip_stop <> stop) ->
  GST_BUFFER_TIMESTAMP (fix_up_stamps buffer start stop clip_start clip_stop)
  = clip_start
  /\ (stop <> GST_CLOCK_TIME_NONE ->
      GST_BUFFER_DURATION (fix_up_stamps buffer start stop clip_start clip_stop)
      = guint64 (clip_stop - clip_start)).
Proof.
  intros Hc. unfold fix_up_stamps.
  assert (negb (clip_start =? start)
          || negb (stop =? GST_CLOCK_TIME_NONE) && negb (clip_stop =? stop)
          = true) as ->.
  { apply orb_true_iff. destruct Hc as [Hs | [Hn Hs]]; [left|right].
    - by apply negb_true_iff, Z.eqb_neq.
    - apply andb_true_iff; split; by apply negb_true_iff, Z.eqb_neq. }
  destruct (Z.eqb_spec stop GST_CLOCK_TIME_NONE) as [->|Hn]; cbn; by split.
Qed.

(** Without the guard of the video chain, what becomes of an alpha buffer
    with no duration is what [gst_segment_clip] makes of it: when it is
    accepted, it is queued with the clipped start as its time stamp. *)
Lemma alpha_chain_open_ended env thiz buffer clip_start clip_stop :
  alpha_flushing thiz = false -> alpha_eos thiz = false ->
  alpha_buffer thiz = None ->
  GST_BUFFER_TIMESTAMP_IS_VALID buffer = true ->
  GST_BUFFER_DURATION_IS_VALID buffer = false ->
  gst_segment_clip (alpha_segment thiz) GST_FORMAT_TIME
    (GST_BUFFER_TIMESTAMP buffer) GST_CLOCK_TIME_NONE
  = Some (clip_start, clip_stop) ->
  exists thiz',
    gst_alpha_mask_alpha_chain env thiz buffer
    = Returned GST_FLOW_OK []
        (set_alpha_buffer thiz' (Some (set_timestamp buffer clip_start))).
Proof.
  intros Hf He Ha Ht Hd Hc. unfold gst_alpha_mask_alpha_chain.
  rewrite Hf, He, Ht, Hd, Hc.
  assert (GST_BUFFER_DURATION_IS_VALID (set_timestamp buffer clip_start)
          = false) as -> by done.
  assert (wait_previous_buffer env thiz = SlotFree thiz) as ->
    by (destruct env; cbn; by rewrite Ha).
  destruct (GST_BUFFER_TIMESTAMP_IS_VALID _); by eexists.
Qed.

(** C10. An alpha buffer with no time stamp is taken as in segment without
    clipping and, with the slot free, queued with its time stamp as it was
    and the position of the alpha segment as it was; its duration, when it
    has one, is set to 0. *)
Theorem alpha_chain_unstamped_buffer env thiz buffer :
  alpha_flushing thiz = false -> alpha_eos thiz = false ->
  alpha_buffer thiz = None ->
  GST_BUFFER_TIMESTAMP_IS_VALID buffer = false ->
  gst_alpha_mask_alpha_chain env thiz buffer
  = Returned GST_FLOW_OK []
      (set_alpha_buffer thiz
         (Some (if GST_BUFFER_DURATION_IS_VALID buffer
                then set_duration buffer 0 else buffer))).
Proof.
  intros Hf He Ha Ht. unfold gst_alpha_mask_alpha_chain.
  rewrite Hf, He, Ht. cbn -[guint64].
  destruct (GST_BUFFER_DURATION_IS_VALID buffer) eqn:Hd.
  - assert (GST_BUFFER_TIMESTAMP_IS_VALID (set_duration buffer (guint64 (0 - 0)))
            = false) as -> by done.
    destruct env; cbn; by rewrite Ha.
  - rewrite Ht. destruct env; cbn; by rewrite Ha.
Qed.

End ChainProofs.

(** ** The chain functions on concrete buffers *)

Section Concrete.
#[local] Existing Instance gst_1_0.

(** The first scenario of the specification: video [0, 33ms) and alpha
    [0, 33ms), both at running time 0. *)
Example scenario_equal_intervals :
  let a := stamped 0 (msec 33) 1 in
  let v := stamped 0 (msec 33) 2 in
  let thiz := playing (time_segment 0) (time_segment 0) (Some a) in
  gst_alpha_mask_video_chain [] thiz v
  = Returned GST_FLOW_OK [PadPush (Converted v (Some a)); BufferUnref a]
      (update_position (set_alpha_buffer thiz None) 0).
Proof. reflexivity. Qed.

(** The second scenario: alpha [0, 10ms) is queued, then video
    [20ms, 53ms) arrives and finds it too old. *)
Example scenario_stale_alpha :
  let a := stamped 0 (msec 10) 1 in
  let v := stamped (msec 20) (msec 33) 2 in
  let thiz := playing (time_segment 0) (time_segment 0) (Some a) in
  gst_alpha_mask_video_chain [] thiz v
  = Stalled [BufferUnref a] (set_alpha_buffer thiz None).
Proof. reflexivity. Qed.

(** C1 as stated fails: an alpha buffer with no duration is paired with the
    video buffer [0, 33ms) and released afterwards, although its
    running-time end is not at or before that of the video buffer. *)
Lemma overlap_releases_unstamped_alpha :
  let a := stamped 0 GST_CLOCK_TIME_NONE 1 in
  let v := stamped 0 (msec 33) 2 in
  let thiz := playing (time_segment 0) (time_segment 0) (Some a) in
  let thiz' := update_position (set_alpha_buffer thiz None) 0 in
  alpha_too_old thiz a 0 = false
  /\ alpha_in_future thiz a (msec 33) = false
  /\ video_chain_pass thiz v 0 (msec 33) 0
     = Return GST_FLOW_OK [PadPush (Converted v (Some a)); BufferUnref a] thiz'
  /\ ~ (alpha_buffer thiz' = None
        <-> alpha_running_time_end thiz a <= vid_running_time_end thiz (msec 33)).
Proof.
  repeat split; try reflexivity.
  intros [Hrel _]. specialize (Hrel eq_refl). vm_compute in Hrel. by apply Hrel.
Qed.

(** C3 as stated fails: for an empty video interval and an empty alpha
    interval at the same instant the video ends at or before the start of
    the alpha, but the alpha is found too old first: it is released and the
    video buffer is not dropped, it waits for the next alpha buffer. *)
Lemma premature_but_too_old_first :
  let a := stamped 5 0 1 in
  let v := stamped 5 0 2 in
  let thiz :=
    playing (time_segment 0) (set_position (time_segment 0) 5) (Some a) in
  gst_alpha_mask_alpha_chain [] (playing (time_segment 0) (time_segment 0) None) a
  = Returned GST_FLOW_OK [] thiz
  /\ valid_alpha_time a = true
  /\ vid_running_time_end thiz 5 <= alpha_running_time thiz a
  /\ video_chain_pass thiz v 5 5 5
     = Retry [BufferUnref a] (set_alpha_buffer thiz None)
  /\ gst_alpha_mask_video_chain [] thiz v
     = Stalled [BufferUnref a] (set_alpha_buffer thiz None)
  /\ video_chain_pass thiz v 5 5 5
     <> Return GST_FLOW_OK [BufferUnref v] (update_position thiz 5).
Proof. repeat split; try reflexivity; vm_compute; congruence. Qed.

(** C5. The video segment starts at 10 and the video buffer is [5, 25): it
    is clipped to [10, 25) and its stamps are rewritten, but the comparison
    with the held alpha buffer [10, 30) is made with the running time of the
    start 5, which is outside of the segment and therefore NONE (the largest
    time): the alpha buffer is found too old and released, and the video
    buffer waits.  With the clipped start 10 the two overlap and the frame
    is composited. *)
Theorem video_chain_compares_unclipped_interval :
  let a := stamped 10 20 1 in
  let v := stamped 5 20 2 in
  let v' := stamped 10 15 2 in
  let thiz := playing (time_segment 10) (time_segment 10) (Some a) in
  gst_segment_clip (segment thiz) GST_FORMAT_TIME 5 25 = Some (10, 25)
  /\ fix_up_stamps v 5 25 10 25 = v'
  /\ gst_alpha_mask_video_chain [] thiz v
     = video_chain_from_wait [] thiz v' 5 25 10
  /\ vid_running_time thiz 5 = GST_CLOCK_TIME_NONE
  /\ gst_alpha_mask_video_chain [] thiz v
     = Stalled [BufferUnref a] (set_alpha_buffer thiz None)
  /\ video_chain_from_wait [] thiz v' 10 25 10
     = Returned GST_FLOW_OK [PadPush (Converted v' (Some a))]
         (update_position thiz 10).
Proof. repeat split; reflexivity. Qed.

(** C6. The alpha segment starts at 10; an alpha buffer stamped 5 with no
    duration is accepted by [gst_alpha_mask_alpha_chain] and queued with its
    time stamp moved to 10.  The video chain discards the same buffer for
    the same segment. *)
Theorem alpha_chain_snaps_open_ended_buffer :
  let b := stamped 5 GST_CLOCK_TIME_NONE 1 in
  let thiz := playing (time_segment 10) (time_segment 10) None in
  gst_alpha_mask_alpha_chain [] thiz b
  = Returned GST_FLOW_OK []
      (set_alpha_buffer thiz (Some (stamped 10 GST_CLOCK_TIME_NONE 1)))
  /\ gst_alpha_mask_video_chain [] thiz b
     = Returned GST_FLOW_OK [BufferUnref b] thiz.
Proof. split; reflexivity. Qed.

End Concrete.


Section Witnesses.
#[local] Existing Instance gst_1_0.

Lemma video_chain_pass_overlap_witness :
  let a := stamped 0 (msec 50) 1 in
  let v := stamped 0 (msec 33) 2 in
  let thiz := playing (time_segment 0) (time_segment 0) (Some a) in
  alpha_too_old thiz a 0 = false /\
  alpha_in_future thiz a (msec 33) = false /\
  exists eff thiz',
    video_chain_pass thiz v 0 (msec 33) 0
    = Return (gst_alpha_mask_push_frame thiz v).2
        ((gst_alpha_mask_push_frame thiz v).1 ++ eff)
        (update_position thiz' 0)
    /\ (forall env,
          video_chain_from_wait env thiz v 0 (msec 33) 0
          = Returned (gst_alpha_mask_push_frame thiz v).2
              ((gst_alpha_mask_push_frame thiz v).1 ++ eff)
              (update_position thiz' 0))
    /\ (can_composite thiz v a ->
        exists o, (gst_alpha_mask_push_frame thiz v).1 = [PadPush o]
                  /\ pairs o v a)
    /\ (valid_alpha_time a = false
        \/ alpha_running_time_end thiz a <= vid_running_time_end thiz (msec 33) ->
        eff = [BufferUnref a] /\ thiz' = set_alpha_buffer thiz None)
    /\ (valid_alpha_time a = true
        /\ vid_running_time_end thiz (msec 33) < alpha_running_time_end thiz a ->
        eff = [] /\ thiz' = thiz).
Proof.
  cbv zeta. split; [reflexivity|]. split; [reflexivity|].
  apply (video_chain_pass_overlap
           (playing (time_segment 0) (time_segment 0)
              (Some (stamped 0 (msec 50) 1)))
           (stamped 0 (msec 33) 2) (stamped 0 (msec 50) 1) 0 (msec 33) 0);
    reflexivity.
Defined.


Lemma video_chain_pass_premature_witness :
  let a := stamped (msec 40) (msec 33) 1 in
  let v := stamped 0 (msec 33) 2 in
  let thiz := playing (time_segment 0) (time_segment 0) (Some a) in
  vid_running_time thiz 0 < alpha_running_time_end thiz a /\
  vid_running_time_end thiz (msec 33) <= alpha_running_time thiz a /\
  video_chain_pass thiz v 0 (msec 33) 0
  = Return GST_FLOW_OK [BufferUnref v] (update_position thiz 0).
Proof.
  cbv zeta. split; [by vm_compute|]. split; [by vm_compute|].
  apply (video_chain_pass_premature
           (playing (time_segment 0) (time_segment 0)
              (Some (stamped (msec 40) (msec 33) 1)))
           (stamped 0 (msec 33) 2) (stamped (msec 40) (msec 33) 1)
           0 (msec 33) 0);
    try reflexivity; by vm_compute.
Defined.

Lemma video_chain_pass_empty_slot_witness :
  let v := stamped 0 (msec 33) 2 in
  let thiz :=
    playing (time_segment 0) (set_position (time_segment 0) (msec 100)) None in
  let waiting := playing (time_segment 0) (time_segment 0) None in
  (no_need_to_wait thiz v /\
   video_chain_pass thiz v 0 (msec 33) 0
   = Return GST_FLOW_OK [PadPush (Unmodified v)] (update_position thiz 0) /\
   video_chain_from_wait [] thiz v 0 (msec 33) 0
   = Returned GST_FLOW_OK [PadPush (Unmodified v)] (update_position thiz 0))
  /\ (~ no_need_to_wait waiting v /\
      video_chain_from_wait [] waiting v 0 (msec 33) 0 = Stalled [] waiting /\
      video_chain_from_wait [fun _ => thiz] waiting v 0 (msec 33) 0
      = Returned GST_FLOW_OK [PadPush (Unmodified v)]
          (update_position thiz 0)).
Proof.
  cbv zeta.
  assert (no_need_to_wait
            (playing (time_segment 0)
               (set_position (time_segment 0) (msec 100)) None)
            (stamped 0 (msec 33) 2)) as Hn.
  { right; right. split; [reflexivity|]. right. by vm_compute. }
  assert (~ no_need_to_wait (playing (time_segment 0) (time_segment 0) None)
              (stamped 0 (msec 33) 2)) as Hw.
  { intros [Hc|[Hc|[_ [[_ Hc]|[_ Hc]]]]]; by vm_compute in Hc. }
  pose proof (video_chain_pass_empty_slot
                (playing (time_segment 0)
                   (set_position (time_segment 0) (msec 100)) None)
                (stamped 0 (msec 33) 2) 0 (msec 33) 0
                eq_refl eq_refl eq_refl) as (Hiff & Hret & _).
  pose proof (video_chain_pass_empty_slot
                (playing (time_segment 0) (time_segment 0) None)
                (stamped 0 (msec 33) 2) 0 (msec 33) 0
                eq_refl eq_refl eq_refl) as (_ & _ & Hwait).
  destruct (Hwait Hw) as (_ & _ & Hstall & Hwoken & _).
  split; [split; [exact Hn|split]|split; [exact Hw|split]].
  - exact (proj1 Hiff Hn).
  - exact (Hret Hn []).
  - exact Hstall.
  - exact (Hwoken (fun _ => playing (time_segment 0)
                              (set_position (time_segment 0) (msec 100)) None)
             [] _ _ _ eq_refl).
Defined.

Lemma alpha_chain_unstamped_buffer_witness :
  let b := stamped GST_CLOCK_TIME_NONE (msec 40) 1 in
  let thiz := playing (time_segment 0) (time_segment 0) None in
  GST_BUFFER_TIMESTAMP_IS_VALID b = false /\
  gst_alpha_mask_alpha_chain [] thiz b
  = Returned GST_FLOW_OK []
      (set_alpha_buffer thiz (Some (stamped GST_CLOCK_TIME_NONE 0 1))).
Proof.
  cbv zeta. split; [reflexivity|].
  apply (alpha_chain_unstamped_buffer []
           (playing (time_segment 0) (time_segment 0) None)
           (stamped GST_CLOCK_TIME_NONE (msec 40) 1));
    reflexivity.
Defined.

End Witnesses.

(** * More of the compositor: edges, bounds and footprints *)

Local Close Scope Z_scope.
Local Open Scope N_scope.

Lemma copy_alpha_packed_le_u1 dp ds sp ss w h :
  4 * w <= 2 ^ 32 ->
  copy_alpha_packed LittleEndian dp ds sp ss w h
  = copy_alpha_packed_u1 dp 0 ds sp 0 ss w h.
Proof.
  intros Hw. unfold copy_alpha_packed.
  change 3 with (N.ones 2). change 7 with (N.ones 3).
  rewrite !land_ones_mod. change (2 ^ 2) with 4. change (2 ^ 3) with 8.
  destruct (N.eqb_spec (w mod 4) 0) as [H4|H4]; cbn [negb]; [|done].
  destruct (N.eqb_spec (w mod 8) 0) as [H8|H8]; cbn [negb].
  - by apply u8_eq_u1.
  - by apply u4_eq_u1.
Qed.

Lemma load_of_nat (m : list byte) (i : nat) : load m (N.of_nat i) = m !! i.
Proof. unfold load. by rewrite Nat2N.id. Qed.

(** X19. On planes that hold [h] rows of their stride, with rows of [w]
    pixels that fit the strides, the packed compositor returns on a
    little-endian host, and its output is the output plane with byte 0 of
    every pixel of the frame replaced by the alpha value of that pixel and
    every other byte as it was. *)
Theorem copy_alpha_packed_correct dp ds sp ss w h :
  4 * w <= ds -> w <= ss -> 4 * w <= 2 ^ 32 ->
  h * ds <= N.of_nat (length dp) ->
  h * ss <= N.of_nat (length sp) ->
  exists out,
    copy_alpha_packed LittleEndian dp ds sp ss w h = Some out
    /\ length out = length dp
    /\ (forall i j, i < h -> j < w ->
          load out (i * ds + 4 * j) = load sp (i * ss + j))
    /\ (forall p, (forall i j, i < h -> j < w -> p <> i * ds + 4 * j) ->
                  load out p = load dp p).
Proof.
  intros Hwd Hws Hw Hd Hs.
  destruct (copy_alpha_packed_copies_alpha dp ds sp ss w h)
    as (out & E & Ha); try done.
  exists out. split; [done|].
  rewrite copy_alpha_packed_le_u1 in E by done.
  apply u1_writes_within in E as [Hl Hk].
  split; [done|]. split; [done|].
  intros p Hp. apply Hk. intros (i & j & Hi & Hj & Ep).
  apply (Hp i j Hi Hj). lia.
Qed.

(** X14. On planes that hold [h] rows of their stride, the output of the
    packed compositor does not depend on the padding of the alpha plane:
    two alpha planes with the same [w] bytes in each of the [h] rows give
    the same output. *)
Theorem copy_alpha_packed_ignores_padding dp ds sp sp' ss w h :
  4 * w <= ds -> w <= ss -> 4 * w <= 2 ^ 32 ->
  h * ds <= N.of_nat (length dp) ->
  h * ss <= N.of_nat (length sp) -> h * ss <= N.of_nat (length sp') ->
  (forall i j, i < h -> j < w ->
     load sp (i * ss + j) = load sp' (i * ss + j)) ->
  copy_alpha_packed LittleEndian dp ds sp ss w h
  = copy_alpha_packed LittleEndian dp ds sp' ss w h.
Proof.
  intros Hwd Hws Hw Hd Hs Hs' Hpix.
  destruct (copy_alpha_packed_copies_alpha dp ds sp ss w h)
    as (out & E & Ha); try done.
  destruct (copy_alpha_packed_copies_alpha dp ds sp' ss w h)
    as (out' & E' & Ha'); try done.
  rewrite E, E'. f_equal.
  rewrite copy_alpha_packed_le_u1 in E, E' by done.
  apply u1_writes_within in E as [Hl Hk], E' as [Hl' Hk'].
  apply list_eq. intros i. rewrite <- !load_of_nat.
  pose proof (Byte.byte_eq_dec : EqDecision byte) as Hdec.
  destruct (decide (load out (N.of_nat i) = load out' (N.of_nat i)))
    as [|Hne]; [done|].
  assert (~ alpha_byte_offset 0 ds w h (N.of_nat i)) as Hn.
  { intros (r & c & Hr & Hc & Ei). apply Hne.
    replace (N.of_nat i) with (r * ds + 4 * c) by lia.
    rewrite Ha, Ha' by done. by apply Hpix. }
  by rewrite Hk, Hk'.
Qed.

(** A loop that returns has run each of its iterations. *)
Lemma for_loop_prefix {St} (n : nat) :
  forall j (f : N -> St -> option St) s s' (k : nat),
  for_loop n j f s = Some s' -> (k < n)%nat ->
  exists sk sk',
    for_loop k j f s = Some sk /\ f (j + N.of_nat k) sk = Some sk'.
Proof.
  induction n as [|n IH]; intros j f s s' k E Hk; [lia|].
  cbn [for_loop] in E.
  destruct (f j s) as [s1|] eqn:E1; cbn [mbind option_bind] in E; [|done].
  destruct k as [|k].
  - exists s, s1. split; [done|]. by rewrite N.add_0_r.
  - destruct (IH (N.succ j) f s1 s' k E) as (sk & sk' & Ek & Ef); [lia|].
    exists sk, sk'. split.
    + cbn [for_loop]. by rewrite E1.
    + by replace (j + N.of_nat (S k)) with (N.succ j + N.of_nat k) by lia.
Qed.

Lemma store_length (m : list byte) a v m' :
  store m a v = Some m' -> length m' = length m /\ a < N.of_nat (length m).
Proof.
  unfold store. case_decide; [|done]. intros [= <-].
  rewrite length_insert. split; [done|lia].
Qed.

Lemma u1_pixel_length smem d s j m m' :
  packed_u1_pixel smem d s j m = Some m' -> length m' = length m.
Proof.
  unfold packed_u1_pixel.
  destruct (load smem (s + j)); cbn [mbind option_bind]; [|done].
  intros E. by apply store_length in E as [? _].
Qed.

Lemma copy_alpha_packed_u1_in_bounds dmem dst ds smem src ss w h out :
  0 < w -> 0 < h -> 4 * w <= 2 ^ 32 ->
  copy_alpha_packed_u1 dmem dst ds smem src ss w h = Some out ->
  dst + (h - 1) * ds + 4 * (w - 1) < N.of_nat (length dmem)
  /\ src + (h - 1) * ss + (w - 1) < N.of_nat (length smem).
Proof.
  intros Hw Hh Hwrap. unfold copy_alpha_packed_u1.
  destruct (for_loop (N.to_nat h) _ _ _) as [t|] eqn:E;
    cbn [mbind option_bind]; [|done].
  intros _.
  apply (for_loop_prefix _ _ _ _ _ (N.to_nat h - 1)) in E
    as ([[d s] m] & t' & Erows & Elast); [|lia].
  apply (for_loop_inv_idx
           (fun i st => st.1.1 = dst + i * ds /\ st.1.2 = src + i * ss
                        /\ length st.2 = length dmem)) in Erows.
  - cbn in Erows. destruct Erows as (-> & -> & Hl).
    destruct (for_loop _ _ (packed_u1_pixel _ _ _) _) as [m1|] eqn:Epix;
      cbn [mbind option_bind] in Elast; [|done].
    apply (for_loop_prefix _ _ _ _ _ (N.to_nat w - 1)) in Epix
      as (mk & mk' & Epre & Epx); [|lia].
    apply (for_loop_inv_idx (fun _ m' => length m' = length m)) in Epre;
      [|intros ? ? ? _ <-; apply u1_pixel_length|done].
    unfold packed_u1_pixel in Epx.
    destruct (load smem _) as [b|] eqn:Eload;
      cbn [mbind option_bind] in Epx; [|done].
    apply store_length in Epx as [_ Hst].
    apply lookup_lt_Some in Eload.
    rewrite guint_small in Hst by lia. lia.
  - intros i [[d' s'] m'] t'' Hi (Hd & Hs & Hl). cbn in Hd, Hs, Hl.
    subst d' s'.
    destruct (for_loop _ _ (packed_u1_pixel smem (dst + i * ds) (src + i * ss))
                m') as [m1|] eqn:Epix;
      cbn [mbind option_bind]; [|done].
    intros [= Ht]; subst t''. cbn. split; [lia|]. split; [lia|].
    apply (for_loop_inv_idx (fun _ m'' => length m'' = length dmem)) in Epix;
      [done| |done].
    intros ? ? ? _ <-. apply u1_pixel_length.
  - cbn. split; [lia|]. split; [lia|done].
Qed.

(** X15. On a little-endian host the packed compositor returns only if the
    last pixel of the last row lies inside both planes: with planes too
    small for the frame, whichever loop is picked, it runs into undefined
    behaviour. *)
Theorem copy_alpha_packed_in_bounds dp ds sp ss w h out :
  0 < w -> 0 < h -> 4 * w <= 2 ^ 32 ->
  copy_alpha_packed LittleEndian dp ds sp ss w h = Some out ->
  (h - 1) * ds + 4 * (w - 1) < N.of_nat (length dp)
  /\ (h - 1) * ss + (w - 1) < N.of_nat (length sp).
Proof.
  intros Hw Hh Hwrap E. rewrite copy_alpha_packed_le_u1 in E by done.
  by apply copy_alpha_packed_u1_in_bounds in E.
Qed.

Lemma rows_of_nothing {St} (body : N -> N * N * St -> option (N * N * St))
  ds ss (n : nat) :
  (forall k d s m, body k (d, s, m) = Some (d + ds, s + ss, m)) ->
  forall i d s (m : St),
  for_loop n i body (d, s, m)
  = Some (d + N.of_nat n * ds, s + N.of_nat n * ss, m).
Proof.
  intros Hbody. induction n as [|n IH]; intros i d s m.
  - cbn. do 3 f_equal; lia.
  - cbn [for_loop]. rewrite Hbody. cbn [mbind option_bind]. rewrite IH.
    do 3 f_equal; lia.
Qed.

(** X16. A frame of no rows or of no columns costs nothing and cannot go
    wrong: the packed compositor returns the output plane as it is,
    whatever the planes and strides, and so does the planar compositor for
    no rows, and for no columns when the strides differ. *)
Theorem compositors_on_empty_frames bo dp ds sp ss w h :
  (w = 0 \/ h = 0 -> copy_alpha_packed bo dp ds sp ss w h = Some dp)
  /\ (h = 0 \/ (w = 0 /\ ss <> ds) ->
      copy_alpha_planar dp ds sp ss w h = Some dp).
Proof.
  split.
  - intros [-> | ->].
    + unfold copy_alpha_packed. cbn [N.land negb N.eqb].
      unfold copy_alpha_packed_u8.
      rewrite (rows_of_nothing _ ds ss); [done|]. intros; reflexivity.
    + unfold copy_alpha_packed, copy_alpha_packed_u1, copy_alpha_packed_u4,
        copy_alpha_packed_u8.
      by repeat case_match.
  - intros [-> | [-> Hne]].
    + unfold copy_alpha_planar, copy_rows, memcpy.
      rewrite N.mul_0_l. by case_match.
    + unfold copy_alpha_planar. apply N.eqb_neq in Hne. rewrite Hne.
      unfold copy_rows.
      rewrite (rows_of_nothing _ ds ss); [done|]. intros; reflexivity.
Qed.

Lemma memcpy_writes_within (W : N -> Prop) m0 dmem dst smem src n out :
  (forall k, k < n -> W (dst + k)) ->
  writes_within W m0 dmem ->
  memcpy dmem dst smem src n = Some out ->
  writes_within W m0 out.
Proof.
  intros HW Hk E. unfold memcpy in E.
  apply (for_loop_inv_idx (fun _ => writes_within W m0)) in E; [done| |done].
  intros k t t' Hlt Ht.
  destruct (load smem (src + k)); cbn [mbind option_bind]; [|done].
  apply store_writes_within; [apply HW; lia|done].
Qed.

(** X17. Whenever [copy_alpha_planar] returns, the output plane has the
    length it had.  With different strides it differs from what it was at
    most in the [w] bytes of each of the [h] rows; with equal strides at
    most in the first [h] times the stride bytes. *)
Theorem copy_alpha_planar_footprint dp ds sp ss w h out :
  copy_alpha_planar dp ds sp ss w h = Some out ->
  length out = length dp
  /\ (ss <> ds ->
      forall p, (forall i j, i < h -> j < w -> p <> i * ds + j) ->
                load out p = load dp p)
  /\ (ss = ds -> forall p, h * ss <= p -> load out p = load dp p).
Proof.
  unfold copy_alpha_planar.
  destruct (N.eqb_spec ss ds) as [->|Hne]; intros E.
  - apply (memcpy_writes_within (fun p => p < h * ds) dp) in E as [Hl Hk];
      [|intros k Hlt; pose proof (N.Div0.mod_le (h * ds) (2 ^ 32));
        unfold guint in *; lia
       |apply writes_within_refl].
    split; [done|]. split; [done|]. intros _ p Hp. apply Hk. lia.
  - unfold copy_rows in E.
    destruct (for_loop (N.to_nat h) _ _ _) as [t|] eqn:Erows;
      cbn [mbind option_bind] in E; [|done].
    injection E as <-.
    apply (for_loop_inv_idx
             (fun i st =>
                st.1.1 = i * ds
                /\ writes_within
                     (fun p => exists i j, i < h /\ j < w /\ p = i * ds + j)
                     dp st.2))
      in Erows as [_ [Hl Hk]].
    + split; [done|]. split; [|done]. intros _ p Hp. apply Hk.
      intros (i & j & Hi & Hj & ->). by apply (Hp i j).
    + intros i [[d s] m] t' Hi [Hd Hm]. cbn in Hd, Hm. subst d.
      destruct (memcpy m (i * ds) sp s w) as [m1|] eqn:Ecp;
        cbn [mbind option_bind]; [|done].
      intros [= Ht]; subst t'. cbn. split; [lia|].
      eapply memcpy_writes_within; [|exact Hm|exact Ecp].
      intros k Hlt. exists i, k. split; [lia|done].
    + cbn. split; [lia|apply writes_within_refl].
Qed.

(** X18. With equal strides the planar compositor takes no notice of the
    width: on planes that hold [h] rows of the stride it returns the output
    plane with its first [h] times the stride bytes replaced by those of
    the alpha plane, padding included. *)
Theorem copy_alpha_planar_equal_strides dp sp ss w h :
  h * ss < 2 ^ 32 ->
  h * ss <= N.of_nat (length dp) -> h * ss <= N.of_nat (length sp) ->
  exists out,
    copy_alpha_planar dp ss sp ss w h = Some out
    /\ length out = length dp
    /\ forall p, load out p
                 = if decide (p < h * ss) then load sp p else load dp p.
Proof.
  intros Hw Hd Hs. unfold copy_alpha_planar. rewrite N.eqb_refl.
  rewrite guint_small by done.
  destruct (memcpy_spec dp 0 sp 0 (h * ss)) as (out & E & Hl & Hp);
    [lia|lia|].
  exists out. split; [done|]. split; [done|].
  intros p. rewrite Hp. repeat case_decide; try lia; try done.
  f_equal. lia.
Qed.

(** * More of the synchronizer: what the chains push, what they leave alone *)

Local Close Scope N_scope.
Local Open Scope Z_scope.

Section ChainInvariants.
Context `{GstCore}.

Lemma pushes_app eff eff' : pushes (eff ++ eff') = pushes eff ++ pushes eff'.
Proof. apply omap_app. Qed.

Lemma pop_alpha_pushes thiz :
  pushes (gst_alpha_mask_pop_alpha thiz).1 = [].
Proof. unfold gst_alpha_mask_pop_alpha. by destruct (alpha_buffer thiz). Qed.

Lemma pop_alpha_state thiz :
  (gst_alpha_mask_pop_alpha thiz).2 = set_alpha_buffer thiz None.
Proof.
  unfold gst_alpha_mask_pop_alpha.
  destruct thiz as [? ? [a|] ? ? ? ? ? ? ? ? ?]; reflexivity.
Qed.

Lemma push_frame_pushes thiz buffer :
  pushes_at_most buffer (gst_alpha_mask_push_frame thiz buffer).1.
Proof.
  unfold gst_alpha_mask_push_frame, gst_alpha_mask_convert, pushes_at_most.
  repeat case_match; simplify_eq; cbn; eauto.
Qed.

Lemma pass_pushes thiz buffer start stop clip_start :
  match video_chain_pass thiz buffer start stop clip_start with
  | Retry eff _ => pushes eff = []
  | Block => True
  | Return _ eff _ => pushes_at_most buffer eff
  end.
Proof.
  unfold video_chain_pass.
  destruct (video_flushing thiz); [by left|].
  destruct (video_eos thiz); [by left|].
  destruct (alpha_buffer thiz) as [a|] eqn:Ha.
  - destruct (alpha_too_old thiz a start).
    + pose proof (pop_alpha_pushes thiz) as Hp.
      by destruct (gst_alpha_mask_pop_alpha thiz).
    + destruct (alpha_in_future thiz a stop).
      * pose proof (pop_alpha_pushes thiz) as Hp.
        destruct (negb (valid_alpha_time a));
          [destruct (gst_alpha_mask_pop_alpha thiz)|]; left; cbn; done.
      * pose proof (push_frame_pushes thiz buffer) as Hf.
        pose proof (pop_alpha_pushes thiz) as Hp.
        destruct (gst_alpha_mask_push_frame thiz buffer) as [pushed ret].
        assert (forall eff, pushes eff = [] ->
                  pushes_at_most buffer (pushed ++ eff)) as Happ.
        { intros eff He. unfold pushes_at_most in *.
          by rewrite pushes_app, He, app_nil_r. }
        destruct (_ || _);
          [destruct (gst_alpha_mask_pop_alpha thiz)|]; by apply Happ.
  - destruct (need_to_wait thiz buffer); [done|]. right. by eexists.
Qed.

Lemma from_wait_pushes buffer start stop clip_start env : forall thiz,
  match video_chain_from_wait env thiz buffer start stop clip_start with
  | Stalled eff _ => pushes eff = []
  | Returned _ eff _ => pushes_at_most buffer eff
  end.
Proof.
  induction env as [|f env IH]; intros thiz; cbn.
  - unfold video_chain_alone.
    pose proof (pass_pushes thiz buffer start stop clip_start) as H1.
    destruct (video_chain_pass thiz buffer start stop clip_start)
      as [eff t| |ret eff t]; try done.
    pose proof (pass_pushes t buffer start stop clip_start) as H2.
    destruct (video_chain_pass t buffer start stop clip_start)
      as [eff' t'| |ret' eff' t']; try done.
    unfold pushes_at_most in *. by rewrite pushes_app, H1.
  - pose proof (pass_pushes thiz buffer start stop clip_start) as H1.
    destruct (video_chain_pass thiz buffer start stop clip_start)
      as [eff t| |ret eff t]; try done; [|apply IH].
    specialize (IH (f t)).
    destruct (video_chain_from_wait env (f t) buffer start stop clip_start);
      cbn; unfold pushes_at_most in *; by rewrite pushes_app, H1.
Qed.

(** X1. Whatever the other thread does, one call of the video chain pushes
    at most one buffer on the source pad, none at all when it never
    returns, and a buffer it pushes is made from the video buffer with its
    stamps fixed up to the interval that [gst_segment_clip] returned. *)
Theorem video_chain_pushes_at_most_once env thiz buffer :
  let start := GST_BUFFER_TIMESTAMP buffer in
  let stop :=
    if negb (GST_BUFFER_DURATION_IS_VALID buffer) then GST_CLOCK_TIME_NONE
    else guint64 (start + GST_BUFFER_DURATION buffer) in
  match gst_alpha_mask_video_chain env thiz buffer with
  | Stalled eff _ => pushes eff = []
  | Returned _ eff _ =>
      pushes eff = []
      \/ exists o clip_start clip_stop,
           pushes eff = [o]
           /\ gst_segment_clip (segment thiz) GST_FORMAT_TIME start stop
              = Some (clip_start, clip_stop)
           /\ out_video o = fix_up_stamps buffer start stop clip_start clip_stop
  end.
Proof.
  cbv zeta. unfold gst_alpha_mask_video_chain.
  destruct (negb (GST_BUFFER_TIMESTAMP_IS_VALID buffer)); [by left|].
  destruct (_ && _); [by left|].
  destruct (gst_segment_clip _ _ _ _) as [[cs ce]|]; [|by left].
  match goal with
  | |- context [video_chain_from_wait env thiz ?b ?s ?e ?c] =>
      pose proof (from_wait_pushes b s e c env thiz) as Hp;
      destruct (video_chain_from_wait env thiz b s e c); [|done]
  end.
  destruct Hp as [Hp | (o & Hp & Ho)]; [by left|].
  right. by exists o, cs, ce.
Qed.

(** X2. The buffer that the video chain hands on carries the clipped start
    as its time stamp; when it has a duration that gives a stop time, its
    duration is the length of the clipped interval; when it has none, it
    still has none: the stop time estimated from the frame rate is never
    written to it. *)
Theorem fix_up_stamps_carries_clip buffer clip_start clip_stop :
  let start := GST_BUFFER_TIMESTAMP buffer in
  let stop :=
    if negb (GST_BUFFER_DURATION_IS_VALID buffer) then GST_CLOCK_TIME_NONE
    else guint64 (start + GST_BUFFER_DURATION buffer) in
  let buffer' := fix_up_stamps buffer start stop clip_start clip_stop in
  0 <= GST_BUFFER_TIMESTAMP buffer < 2 ^ 64 ->
  0 <= GST_BUFFER_DURATION buffer < 2 ^ 64 ->
  GST_BUFFER_TIMESTAMP buffer' = clip_start
  /\ buffer_memory buffer' = buffer_memory buffer
  /\ (stop <> GST_CLOCK_TIME_NONE ->
      GST_BUFFER_DURATION buffer' = guint64 (clip_stop - clip_start))
  /\ (stop = GST_CLOCK_TIME_NONE ->
      GST_BUFFER_DURATION buffer' = GST_BUFFER_DURATION buffer).
Proof.
  intros start stop buffer' Ht Hd. subst buffer'. unfold fix_up_stamps.
  assert (stop <> GST_CLOCK_TIME_NONE ->
          GST_BUFFER_DURATION buffer = guint64 (stop - start)) as Hdur.
  { unfold stop.
    destruct (GST_BUFFER_DURATION_IS_VALID buffer); cbn [negb]; [|done].
    intros _. unfold guint64. rewrite Zminus_mod_idemp_l.
    replace (start + GST_BUFFER_DURATION buffer - start)
      with (GST_BUFFER_DURATION buffer) by lia.
    symmetry. apply Z.mod_small. lia. }
  destruct (Z.eqb_spec clip_start start) as [->|Es];
    destruct (Z.eqb_spec stop GST_CLOCK_TIME_NONE) as [En|En];
    destruct (Z.eqb_spec clip_stop stop) as [->|Ee];
    cbn; repeat split; try done; intros; try done; by apply Hdur.
Qed.

(** X3. A run of the decision changes nothing in the element but the slot
    and the position of the video segment, and it never puts a buffer into
    the slot: the slot is as it was or empty. *)
Theorem video_chain_pass_frame thiz buffer start stop clip_start :
  match video_chain_pass thiz buffer start stop clip_start with
  | Block => True
  | Retry _ thiz' | Return _ _ thiz' =>
      same_but_slot_and_position thiz thiz'
      /\ (alpha_buffer thiz' = alpha_buffer thiz \/ alpha_buffer thiz' = None)
  end.
Proof.
  assert (forall t, same_but_slot_and_position t t) as Hrefl
    by (intros; by repeat split).
  assert (forall t a, same_but_slot_and_position t (set_alpha_buffer t a))
    as Hslot by (intros; by repeat split).
  assert (forall t t' c, same_but_slot_and_position t t' ->
            same_but_slot_and_position t (update_position t' c)) as Hpos.
  { intros t t' c (Hs1 & Hs). split; [|exact Hs].
    rewrite <- Hs1. reflexivity. }
  unfold video_chain_pass.
  destruct (video_flushing thiz); [split; [apply Hrefl|by left]|].
  destruct (video_eos thiz); [split; [apply Hrefl|by left]|].
  pose proof (pop_alpha_state thiz) as Hpop.
  destruct (alpha_buffer thiz) as [a|] eqn:Ha.
  - destruct (alpha_too_old thiz a start).
    + destruct (gst_alpha_mask_pop_alpha thiz) as [eff t]. cbn in Hpop.
      subst t. split; [apply Hslot|by right].
    + destruct (alpha_in_future thiz a stop).
      * destruct (negb (valid_alpha_time a)).
        -- destruct (gst_alpha_mask_pop_alpha thiz) as [eff t]. cbn in Hpop.
           subst t. split; [apply Hpos, Hslot|by right].
        -- split; [apply Hpos, Hrefl|left; cbn; done].
      * destruct (gst_alpha_mask_push_frame thiz buffer) as [pushed ret].
        destruct (_ || _).
        -- destruct (gst_alpha_mask_pop_alpha thiz) as [eff t]. cbn in Hpop.
           subst t. split; [apply Hpos, Hslot|by right].
        -- split; [apply Hpos, Hrefl|left; cbn; done].
  - destruct (need_to_wait thiz buffer); [done|].
    split; [apply Hpos, Hrefl|left; cbn; done].
Qed.

(** X4. A video buffer with no time stamp, one with no duration that starts
    before the segment, and one that [gst_segment_clip] refuses are all
    discarded as they came, with OK, at once and without a change to the
    element.  An alpha buffer that [gst_segment_clip] refuses is discarded
    in the same way, without waiting for the slot even when it is full. *)
Theorem chains_discard_rejected_buffers env thiz buffer :
  let start := GST_BUFFER_TIMESTAMP buffer in
  let stop :=
    if GST_BUFFER_DURATION_IS_VALID buffer
    then guint64 (start + GST_BUFFER_DURATION buffer)
    else GST_CLOCK_TIME_NONE in
  (GST_BUFFER_TIMESTAMP_IS_VALID buffer = false
   \/ (stop = GST_CLOCK_TIME_NONE /\ start < seg_start (segment thiz))
   \/ gst_segment_clip (segment thiz) GST_FORMAT_TIME start stop = None ->
   gst_alpha_mask_video_chain env thiz buffer
   = Returned GST_FLOW_OK [BufferUnref buffer] thiz)
  /\ (alpha_flushing thiz = false -> alpha_eos thiz = false ->
      GST_BUFFER_TIMESTAMP_IS_VALID buffer = true ->
      gst_segment_clip (alpha_segment thiz) GST_FORMAT_TIME start stop = None ->
      gst_alpha_mask_alpha_chain env thiz buffer
      = Returned GST_FLOW_OK [BufferUnref buffer] thiz).
Proof.
  intros start stop. split.
  - intros Hrej. unfold gst_alpha_mask_video_chain. fold start.
    replace (if negb (GST_BUFFER_DURATION_IS_VALID buffer)
             then GST_CLOCK_TIME_NONE
             else guint64 (start + GST_BUFFER_DURATION buffer)) with stop
      by (unfold stop; by destruct (GST_BUFFER_DURATION_IS_VALID buffer)).
    destruct (GST_BUFFER_TIMESTAMP_IS_VALID buffer); cbn [negb]; [|done].
    destruct Hrej as [?|[[Hs Hlt]|Hc]]; [done| |].
    + apply Z.eqb_eq in Hs. apply Z.ltb_lt in Hlt. by rewrite Hs, Hlt.
    + rewrite Hc. by destruct (_ && _).
  - intros Hf He Ht Hc. unfold gst_alpha_mask_alpha_chain.
    fold start. fold stop. by rewrite Hf, He, Ht, Hc.
Qed.

End ChainInvariants.

Section Lifecycle.
Context `{GstCore} `{GstCapsCore}.

(** X5. After the change from PAUSED to READY, whatever the parent class
    returns, the slot is empty and both streams are flushing: the alpha
    chain returns FLUSHING, and the video chain returns OK or FLUSHING; both
    discard their buffer, push nothing, never wait and leave the element as
    it is. *)
Theorem teardown_unblocks_and_silences parent thiz :
  let down :=
    (gst_alpha_mask_change_state parent thiz
       GST_STATE_CHANGE_PAUSED_TO_READY).1.2 in
  alpha_buffer down = None
  /\ (forall env buffer,
        gst_alpha_mask_alpha_chain env down buffer
        = Returned GST_FLOW_FLUSHING [BufferUnref buffer] down)
  /\ (forall env buffer,
        exists ret buffer',
          gst_alpha_mask_video_chain env down buffer
          = Returned ret [BufferUnref buffer'] down
          /\ (ret = GST_FLOW_OK \/ ret = GST_FLOW_FLUSHING)).
Proof.
  cbv zeta.
  set (down := (gst_alpha_mask_change_state parent thiz
                  GST_STATE_CHANGE_PAUSED_TO_READY).1.2).
  assert (alpha_buffer down = None /\ video_flushing down = true
          /\ alpha_flushing down = true) as (Hs & Hv & Ha).
  { unfold down, gst_alpha_mask_change_state, gst_alpha_mask_pop_alpha.
    destruct thiz as [? ? [a|] ? ? ? ? ? ? ? ? ?], parent; by cbn. }
  split; [done|]. split.
  - intros env buffer. unfold gst_alpha_mask_alpha_chain. by rewrite Ha.
  - intros env buffer. unfold gst_alpha_mask_video_chain.
    destruct (negb _); [by eexists _, _; split; [|left]|].
    destruct (_ && _); [by eexists _, _; split; [|left]|].
    destruct (gst_segment_clip _ _ _ _) as [[cs ce]|];
      [|by eexists _, _; split; [|left]].
    eexists _, _. split; [|by right].
    destruct env; cbn; unfold video_chain_alone, video_chain_pass;
      by rewrite Hv.
Qed.

(** X6. A change to READY and back to PAUSED that the parent class accepts
    leaves an element with an empty slot, no stream flushing or at
    end-of-stream and two fresh TIME segments; the segment-done mark of the
    alpha stream, the frame rate and the formats are what they were. *)
Theorem restart_resets_streams p1 p2 thiz :
  p1 <> GST_STATE_CHANGE_FAILURE -> p2 <> GST_STATE_CHANGE_FAILURE ->
  let down :=
    (gst_alpha_mask_change_state p1 thiz
       GST_STATE_CHANGE_PAUSED_TO_READY).1.2 in
  (gst_alpha_mask_change_state p2 down GST_STATE_CHANGE_READY_TO_PAUSED).1.2
  = {| segment := gst_segment_init GST_FORMAT_TIME;
       alpha_segment := gst_segment_init GST_FORMAT_TIME;
       alpha_buffer := None;
       video_flushing := false; video_eos := false;
       alpha_flushing := false; alpha_eos := false;
       alpha_segment_done := alpha_segment_done thiz;
       fps_n := fps_n thiz; fps_d := fps_d thiz;
       iformat := iformat thiz; oformat := oformat thiz |}.
Proof.
  intros H1 H2. cbv zeta.
  unfold gst_alpha_mask_change_state, gst_alpha_mask_pop_alpha.
  destruct thiz as [? ? [a|] ? ? ? ? ? ? ? ? ?], p1, p2; done.
Qed.

(** X7. Flush start followed by flush stop on the alpha stream releases the
    held alpha buffer, if there is one, and leaves the alpha stream not
    flushing, not at end-of-stream, not segment-done, with an empty slot and
    a fresh TIME segment; the video stream's fields are untouched.  Between
    the two events every alpha buffer is refused with FLUSHING. *)
Theorem alpha_flush_round_trip thiz :
  let started := after_alpha_event GST_EVENT_FLUSH_START thiz in
  let '(eff, stopped, _) :=
    gst_alpha_mask_alpha_event started GST_EVENT_FLUSH_STOP in
  (forall env buffer,
     gst_alpha_mask_alpha_chain env started buffer
     = Returned GST_FLOW_FLUSHING [BufferUnref buffer] started)
  /\ eff = match alpha_buffer thiz with
           | Some a => [BufferUnref a]
           | None => []
           end
  /\ stopped
     = {| segment := segment thiz;
          alpha_segment := gst_segment_init GST_FORMAT_TIME;
          alpha_buffer := None;
          video_flushing := video_flushing thiz; video_eos := video_eos thiz;
          alpha_flushing := false; alpha_eos := false;
          alpha_segment_done := false;
          fps_n := fps_n thiz; fps_d := fps_d thiz;
          iformat := iformat thiz; oformat := oformat thiz |}.
Proof.
  cbv zeta. unfold after_alpha_event.
  destruct thiz as [? ? [a|] ? ? ? ? ? ? ? ? ?]; cbn;
    (split; [intros; reflexivity|by split]).
Qed.

Lemma video_setcaps_result thiz caps t ret :
  gst_alpha_mask_video_setcaps thiz caps = Some (t, ret) ->
  match gst_video_info_from_caps caps with
  | None => t = thiz /\ ret = false
  | Some info =>
      t = set_video_info thiz info
      \/ exists format, t = set_oformat (set_video_info thiz info) format
  end.
Proof.
  unfold gst_alpha_mask_video_setcaps, gst_alpha_mask_negotiate.
  destruct (gst_video_info_from_caps caps) as [info|].
  - repeat (case_match; try discriminate); intros [= <- <-]; eauto.
  - by intros [= <- <-].
Qed.

(** X8. The handlers of one stream leave the other stream alone.  An
    event on the alpha pad, a CAPS event included, changes nothing of the
    video segment, the video flags, the frame rate and the formats, and
    never puts a buffer into the slot.  An event on the video pad changes
    nothing of the alpha segment, the alpha flags and the slot; the frame
    rate and the formats are changed by a CAPS event only, which in turn
    leaves the video segment and the video flags alone and stores nothing in
    [video_segment_done].  A CAPS event on the video pad whose caps do not
    parse is refused and changes nothing; one that is taken makes the
    parsed frame rate and format those of the input.  The handler of the
    video pad has a result on every event but CAPS. *)
Theorem event_handlers_keep_to_their_stream thiz event :
  (let ta := (gst_alpha_mask_alpha_event thiz event).1.2 in
   segment ta = segment thiz
   /\ video_flushing ta = video_flushing thiz /\ video_eos ta = video_eos thiz
   /\ fps_n ta = fps_n thiz /\ fps_d ta = fps_d thiz
   /\ iformat ta = iformat thiz /\ oformat ta = oformat thiz
   /\ (alpha_buffer ta = alpha_buffer thiz \/ alpha_buffer ta = None))
  /\ (forall tv stored ret,
        gst_alpha_mask_video_event thiz event = Some (tv, stored, ret) ->
        (alpha_segment tv = alpha_segment thiz
         /\ alpha_buffer tv = alpha_buffer thiz
         /\ alpha_flushing tv = alpha_flushing thiz
         /\ alpha_eos tv = alpha_eos thiz
         /\ alpha_segment_done tv = alpha_segment_done thiz)
        /\ ((forall caps, event <> GST_EVENT_CAPS caps) ->
            fps_n tv = fps_n thiz /\ fps_d tv = fps_d thiz
            /\ iformat tv = iformat thiz /\ oformat tv = oformat thiz)
        /\ (forall caps, event = GST_EVENT_CAPS caps ->
              segment tv = segment thiz
              /\ video_flushing tv = video_flushing thiz
              /\ video_eos tv = video_eos thiz
              /\ stored = None
              /\ match gst_video_info_from_caps caps with
                 | None => tv = thiz /\ ret = EventFalse
                 | Some info =>
                     fps_n tv = info_fps_n info /\ fps_d tv = info_fps_d info
                     /\ iformat tv = info_format info
                     /\ (ret = EventTrue \/ ret = EventFalse)
                 end))
  /\ ((forall caps, event <> GST_EVENT_CAPS caps) ->
      is_Some (gst_alpha_mask_video_event thiz event)).
Proof.
  split; [|split].
  - destruct thiz as [? ? [a|] ? ? ? ? ? ? ? ? ?], event as [c|s| | | | | | |];
      cbn; try destruct (GstFormat_eqb _ _); cbn; repeat split; auto.
  - intros tv stored ret Hev.
    destruct event as [c|s| | | | | | |]; cbn in Hev;
      try (injection Hev as <- <- <-;
           split; [try destruct (GstFormat_eqb _ _); by repeat split|];
           split; [intros _; try destruct (GstFormat_eqb _ _); by repeat split|];
           intros caps [=]).
    destruct (gst_alpha_mask_video_setcaps thiz c) as [[t r]|] eqn:Eset;
      cbn in Hev; [|discriminate].
    injection Hev as <- <- <-.
    apply video_setcaps_result in Eset.
    assert (forall caps, GST_EVENT_CAPS c = GST_EVENT_CAPS caps -> caps = c)
      as Hc by (by intros caps [= ->]).
    destruct (gst_video_info_from_caps c) as [info|] eqn:Ei.
    + assert (forall P : GstAlphaMask -> Prop,
                P (set_video_info thiz info) ->
                (forall format,
                   P (set_oformat (set_video_info thiz info) format)) ->
                P t) as Hall.
      { intros P H1 H2. destruct Eset as [-> | [format ->]]; auto. }
      split; [repeat split; by apply Hall|].
      split; [intros Hn; by destruct (Hn c)|].
      intros caps Heq. apply Hc in Heq as ->. rewrite Ei.
      repeat split; try by apply Hall.
      destruct r; auto.
    + destruct Eset as [-> ->].
      split; [by repeat split|].
      split; [intros Hn; by destruct (Hn c)|].
      intros caps Heq. apply Hc in Heq as ->. rewrite Ei. by repeat split.
  - intros Hn. destruct event as [c|s| | | | | | |]; cbn; try by eexists.
    by destruct (Hn c).
Qed.

Lemma video_chain_returns_at_once env thiz buffer start stop clip_start
  ret eff thiz' :
  video_chain_pass thiz buffer start stop clip_start = Return ret eff thiz' ->
  video_chain_from_wait env thiz buffer start stop clip_start
  = Returned ret eff thiz'.
Proof.
  intros Hp. destruct env; cbn; unfold video_chain_alone; by rewrite Hp.
Qed.

Lemma video_chain_pass_block thiz buffer start stop clip_start :
  video_chain_pass thiz buffer start stop clip_start = Block ->
  video_flushing thiz = false /\ video_eos thiz = false
  /\ alpha_buffer thiz = None /\ need_to_wait thiz buffer = true.
Proof.
  unfold video_chain_pass. intros Hb.
  destruct (video_flushing thiz); [done|].
  destruct (video_eos thiz); [done|].
  destruct (alpha_buffer thiz); [by repeat case_match|].
  by destruct (need_to_wait thiz buffer).
Qed.

(** X9. A video chain that waits for an alpha buffer is woken by a
    broadcast and by nothing else.  The flush start on the video pad
    broadcasts: the chain discards its buffer and returns FLUSHING without
    pushing.  The end-of-stream on the video pad sets its flag and does not
    broadcast: the chain goes on waiting, and discards its buffer and
    returns EOS without pushing once something else wakes it that leaves
    the video flags alone, as do the events on the alpha pad that
    broadcast once, when they are done.  The end-of-stream and the
    segment-done on the alpha pad broadcast: the chain pushes the video
    buffer as it is. *)
Theorem waiting_video_chain_is_released thiz buffer start stop clip_start :
  video_chain_pass thiz buffer start stop clip_start = Block ->
  let wait_through steps :=
    video_chain_from_wait (wake_ups (fun t => t) steps)
      thiz buffer start stop clip_start in
  let at_eos := after_video_event GST_EVENT_EOS thiz in
  (forall rest,
     wait_through (on_video_pad GST_EVENT_FLUSH_START :: rest)
     = Returned GST_FLOW_FLUSHING [BufferUnref buffer]
         (after_video_event GST_EVENT_FLUSH_START thiz))
  /\ wait_through [on_video_pad GST_EVENT_EOS] = Stalled [] thiz
  /\ (forall (f : interference) rest,
        video_flushing (f at_eos) = video_flushing at_eos ->
        video_eos (f at_eos) = video_eos at_eos ->
        wait_through (on_video_pad GST_EVENT_EOS :: (f, true) :: rest)
        = Returned GST_FLOW_EOS [BufferUnref buffer] (f at_eos))
  /\ (forall e rest,
        alpha_event_broadcasts e = true ->
        (forall s, e <> GST_EVENT_SEGMENT s) ->
        wait_through (on_video_pad GST_EVENT_EOS :: on_alpha_pad e :: rest)
        = Returned GST_FLOW_EOS [BufferUnref buffer]
            (after_alpha_event e at_eos))
  /\ (forall e rest,
        e = GST_EVENT_EOS \/ e = GST_EVENT_SEGMENT_DONE ->
        wait_through (on_alpha_pad e :: rest)
        = Returned (gst_pad_push (Unmodified buffer))
            [PadPush (Unmodified buffer)]
            (update_position (after_alpha_event e thiz) clip_start)).
Proof.
  intros Hb. cbv zeta.
  destruct (video_chain_pass_block _ _ _ _ _ Hb) as (Hf & He & Ha & Hw).
  assert (forall (f : interference) rest,
            video_flushing (f (after_video_event GST_EVENT_EOS thiz))
            = video_flushing (after_video_event GST_EVENT_EOS thiz) ->
            video_eos (f (after_video_event GST_EVENT_EOS thiz))
            = video_eos (after_video_event GST_EVENT_EOS thiz) ->
            video_chain_from_wait
              (wake_ups (fun t => t)
                 (on_video_pad GST_EVENT_EOS :: (f, true) :: rest))
              thiz buffer start stop clip_start
            = Returned GST_FLOW_EOS [BufferUnref buffer]
                (f (after_video_event GST_EVENT_EOS thiz))) as Heos.
  { intros f rest Hff Hfe. cbn [wake_ups on_video_pad video_event_broadcasts].
    cbn [video_chain_from_wait]. rewrite Hb.
    apply video_chain_returns_at_once.
    unfold video_chain_pass. rewrite Hff, Hfe.
    unfold after_video_event. cbn. by rewrite Hf. }
  split; [|split; [|split; [|split]]].
  - intros rest. cbn [wake_ups on_video_pad video_event_broadcasts].
    cbn [video_chain_from_wait]. rewrite Hb.
    apply video_chain_returns_at_once.
    unfold video_chain_pass, after_video_event. by cbn.
  - cbn. unfold video_chain_alone. by rewrite Hb.
  - exact Heos.
  - intros e rest Hbr Hs. unfold on_alpha_pad. rewrite Hbr.
    apply Heos; unfold after_alpha_event, after_video_event;
      destruct e; try discriminate; cbn;
      try reflexivity; try (by destruct (Hs s));
      unfold gst_alpha_mask_pop_alpha; cbn; by rewrite Ha.
  - intros e rest Hev.
    assert (alpha_event_broadcasts e = true) as Hbr
      by (by destruct Hev as [-> | ->]).
    unfold on_alpha_pad. cbn [wake_ups]. rewrite Hbr.
    cbn [video_chain_from_wait]. rewrite Hb.
    apply video_chain_returns_at_once.
    unfold video_chain_pass, need_to_wait, after_alpha_event.
    destruct Hev as [-> | ->]; cbn; rewrite Hf, He, Ha;
      rewrite ?orb_true_r; by repeat case_match.
Qed.

Lemma wait_previous_buffer_free env thiz :
  alpha_buffer thiz = None -> wait_previous_buffer env thiz = SlotFree thiz.
Proof. intros Ha. destruct env; cbn; by rewrite Ha. Qed.

Lemma wait_previous_buffer_held env thiz :
  (forall k, (k <= length env)%nat ->
     alpha_buffer (after (take k env) thiz) <> None
     /\ alpha_flushing (after (take k env) thiz) = false) ->
  wait_previous_buffer env thiz = WaitForever (after env thiz)
  /\ forall (f : interference) rest,
       wait_previous_buffer (env ++ f :: rest) thiz
       = if alpha_flushing (f (after env thiz))
         then WaitFlushing (f (after env thiz))
         else wait_previous_buffer rest (f (after env thiz)).
Proof.
  revert thiz. induction env as [|g env IH]; intros thiz Hheld.
  - destruct (Hheld 0%nat) as [Ha _]; [cbn; lia|]. cbn in Ha.
    cbn. destruct (alpha_buffer thiz); [|done]. by split.
  - destruct (Hheld 0%nat) as [Ha _]; [cbn; lia|]. cbn in Ha.
    destruct (Hheld 1%nat) as [_ Hf]; [cbn; lia|].
    change (alpha_flushing (g thiz) = false) in Hf.
    cbn. destruct (alpha_buffer thiz); [|done]. rewrite Hf.
    apply IH. intros k Hk. apply (Hheld (S k)). cbn. lia.
Qed.

Lemma wait_previous_buffer_ends env thiz :
  alpha_buffer thiz <> None ->
  match wait_previous_buffer env thiz with
  | SlotFree t =>
      exists n, (0 < n <= length env)%nat /\ t = after (take n env) thiz
        /\ (forall k, (k < n)%nat ->
              alpha_buffer (after (take k env) thiz) <> None)
        /\ alpha_buffer t = None /\ alpha_flushing t = false
  | WaitFlushing t =>
      exists n, (0 < n <= length env)%nat /\ t = after (take n env) thiz
        /\ (forall k, (k < n)%nat ->
              alpha_buffer (after (take k env) thiz) <> None)
        /\ alpha_flushing t = true
  | WaitForever t => t = after env thiz
  end.
Proof.
  revert thiz. induction env as [|g env IH]; intros thiz Ha.
  - cbn. by destruct (alpha_buffer thiz).
  - cbn [wait_previous_buffer].
    destruct (alpha_buffer thiz) eqn:Ea; [|done].
    assert (forall k, (k < 1)%nat ->
              alpha_buffer (after (take k (g :: env)) thiz) <> None)
      as Hfirst.
    { intros k Hk. replace k with 0%nat by lia. cbn. by rewrite Ea. }
    destruct (alpha_flushing (g thiz)) eqn:Ef.
    + exists 1%nat. repeat split; cbn; try lia; done.
    + destruct (alpha_buffer (g thiz)) eqn:Eg.
      * specialize (IH (g thiz)). rewrite Eg in IH.
        specialize (IH ltac:(done)).
        assert (forall n k, (k < S n)%nat ->
                  (forall k', (k' < n)%nat ->
                     alpha_buffer (after (take k' env) (g thiz)) <> None) ->
                  alpha_buffer (after (take k (g :: env)) thiz) <> None)
          as Hshift.
        { intros n [|k] Hk Hall; cbn; [by rewrite Ea|]. apply Hall. lia. }
        destruct (wait_previous_buffer env (g thiz)) as [t|t|t].
        -- destruct IH as (n & Hn & -> & Hall & Hnone & Hfl).
           exists (S n). repeat split; cbn; try lia; try done.
           intros k Hk. by apply (Hshift n).
        -- destruct IH as (n & Hn & -> & Hall & Hfl).
           exists (S n). repeat split; cbn; try lia; try done.
           intros k Hk. by apply (Hshift n).
        -- done.
      * rewrite (wait_previous_buffer_free _ _ Eg).
        exists 1%nat. repeat split; cbn; try lia; done.
Qed.

(** X10. The slot holds back the alpha chain.  With a buffer queued, an
    alpha buffer that is in segment (or has no time stamp) waits as long as
    each wake-up finds the slot still taken and the alpha stream not
    flushing, and for ever when nothing more happens, leaving the element
    as it is; it is discarded with FLUSHING at the first wake-up that finds
    the alpha stream flushing, the slot being left as it was found; and it
    is queued at the first wake-up that finds the slot empty, changing the
    slot and the position of the alpha segment only.  So whenever the chain
    returns OK the slot was empty where the buffer went in: a held buffer
    is never overwritten.  The buffer keeps its storage throughout. *)
Theorem alpha_chain_waits_for_slot thiz buffer held :
  alpha_flushing thiz = false -> alpha_eos thiz = false ->
  alpha_buffer thiz = Some held ->
  (GST_BUFFER_TIMESTAMP_IS_VALID buffer = true ->
   exists clip,
     gst_segment_clip (alpha_segment thiz) GST_FORMAT_TIME
       (GST_BUFFER_TIMESTAMP buffer)
       (if GST_BUFFER_DURATION_IS_VALID buffer
        then guint64 (GST_BUFFER_TIMESTAMP buffer + GST_BUFFER_DURATION buffer)
        else GST_CLOCK_TIME_NONE) = Some clip) ->
  exists buffer',
    buffer_memory buffer' = buffer_memory buffer
    /\ (forall env : list interference,
          (forall k, (k <= length env)%nat ->
             alpha_buffer (after (take k env) thiz) <> None
             /\ alpha_flushing (after (take k env) thiz) = false) ->
          let found := after env thiz in
          gst_alpha_mask_alpha_chain env thiz buffer = Stalled [] found
          /\ (forall (f : interference) rest,
                alpha_flushing (f found) = true ->
                gst_alpha_mask_alpha_chain (env ++ f :: rest) thiz buffer
                = Returned GST_FLOW_FLUSHING [BufferUnref buffer'] (f found))
          /\ (forall (f : interference) rest,
                alpha_flushing (f found) = false ->
                alpha_buffer (f found) = None ->
                exists thiz',
                  gst_alpha_mask_alpha_chain (env ++ f :: rest) thiz buffer
                  = Returned GST_FLOW_OK [] thiz'
                  /\ alpha_buffer thiz' = Some buffer'
                  /\ same_but_slot_and_alpha_position (f found) thiz'))
    /\ (forall (env : list interference) ret eff thiz',
          gst_alpha_mask_alpha_chain env thiz buffer
          = Returned ret eff thiz' ->
          exists n,
            (0 < n <= length env)%nat
            /\ (forall k, (k < n)%nat ->
                  alpha_buffer (after (take k env) thiz) <> None)
            /\ let found := after (take n env) thiz in
               (ret = GST_FLOW_FLUSHING /\ eff = [BufferUnref buffer']
                /\ alpha_flushing found = true /\ thiz' = found)
               \/ (ret = GST_FLOW_OK /\ eff = []
                   /\ alpha_buffer found = None
                   /\ alpha_buffer thiz' = Some buffer'
                   /\ same_but_slot_and_alpha_position found thiz')).
Proof.
  intros Hf He Ha Hseg.
  assert (alpha_buffer thiz <> None) as Hheld0 by (by rewrite Ha).
  assert (forall t b, same_but_slot_and_alpha_position t
                        (set_alpha_buffer t b)) as Hsame1.
  { intros t b. by repeat split. }
  assert (forall t b p,
            same_but_slot_and_alpha_position t
              (set_alpha_buffer
                 (set_alpha_segment t (set_position (alpha_segment t) p)) b))
    as Hsame2.
  { intros t b p. by repeat split. }
  unfold gst_alpha_mask_alpha_chain. rewrite Hf, He.
  destruct (GST_BUFFER_TIMESTAMP_IS_VALID buffer) eqn:Ht.
  - destruct (Hseg eq_refl) as [[cs ce] ->].
    match goal with
    | |- context [BufferUnref ?b] => exists b
    end.
    split; [by repeat case_match|]. split.
    + intros env Hheld. cbv zeta.
      destruct (wait_previous_buffer_held env thiz Hheld) as [Hstall Hnext].
      split; [by rewrite Hstall|]. split.
      * intros f rest Hfl. by rewrite Hnext, Hfl.
      * intros f rest Hfl Hslot.
        rewrite Hnext, Hfl, (wait_previous_buffer_free _ _ Hslot).
        eexists. split; [reflexivity|]. split; [done|].
        repeat case_match; apply Hsame2 || apply Hsame1.
    + intros env ret eff thiz' Hr.
      pose proof (wait_previous_buffer_ends env thiz Hheld0) as Hend.
      destruct (wait_previous_buffer env thiz) as [t|t|t]; [| |done].
      * destruct Hend as (n & Hn & -> & Hall & Hnone & _).
        exists n. split; [done|]. split; [done|]. right.
        injection Hr as <- <- <-.
        split; [done|]. split; [done|]. split; [done|]. split; [done|].
        repeat case_match; apply Hsame2 || apply Hsame1.
      * destruct Hend as (n & Hn & -> & Hall & Hfl).
        exists n. split; [done|]. split; [done|]. left.
        by injection Hr as <- <- <-.
  - match goal with
    | |- context [BufferUnref ?b] => exists b
    end.
    split; [by repeat case_match|]. split.
    + intros env Hheld. cbv zeta.
      destruct (wait_previous_buffer_held env thiz Hheld) as [Hstall Hnext].
      split; [by rewrite Hstall|]. split.
      * intros f rest Hfl. by rewrite Hnext, Hfl.
      * intros f rest Hfl Hslot.
        rewrite Hnext, Hfl, (wait_previous_buffer_free _ _ Hslot).
        eexists. split; [reflexivity|]. split; [done|].
        repeat case_match; apply Hsame2 || apply Hsame1.
    + intros env ret eff thiz' Hr.
      pose proof (wait_previous_buffer_ends env thiz Hheld0) as Hend.
      destruct (wait_previous_buffer env thiz) as [t|t|t]; [| |done].
      * destruct Hend as (n & Hn & -> & Hall & Hnone & _).
        exists n. split; [done|]. split; [done|]. right.
        injection Hr as <- <- <-.
        split; [done|]. split; [done|]. split; [done|]. split; [done|].
        repeat case_match; apply Hsame2 || apply Hsame1.
      * destruct Hend as (n & Hn & -> & Hall & Hfl).
        exists n. split; [done|]. split; [done|]. left.
        by injection Hr as <- <- <-.
Qed.

(** X11. [gst_alpha_mask_push_frame] degrades frame by frame.  With an
    output format that goes through the converter and input and output
    frames that map, an alpha buffer that does not map costs the frame its
    alpha channel and nothing else: the converted video frame is pushed.
    When the input or the output frame does not map, or the output format
    is none of A420, ARGB and AYUV, nothing is pushed and OK is returned. *)
Theorem push_frame_degrades thiz buffer a :
  alpha_buffer thiz = Some a ->
  let converts :=
    oformat thiz = GST_VIDEO_FORMAT_ARGB \/ oformat thiz = GST_VIDEO_FORMAT_AYUV
    \/ (oformat thiz = GST_VIDEO_FORMAT_A420
        /\ iformat thiz <> GST_VIDEO_FORMAT_GRAY8) in
  (converts ->
   gst_video_frame_map InFrame buffer = true ->
   gst_video_frame_map OutFrame buffer = true ->
   gst_video_frame_map AlphaFrame a = false ->
   gst_alpha_mask_push_frame thiz buffer
   = ([PadPush (Converted buffer None)],
      gst_pad_push (Converted buffer None)))
  /\ (converts ->
      gst_video_frame_map InFrame buffer = false
      \/ gst_video_frame_map OutFrame buffer = false ->
      gst_alpha_mask_push_frame thiz buffer = ([], GST_FLOW_OK))
  /\ (oformat thiz <> GST_VIDEO_FORMAT_A420 ->
      oformat thiz <> GST_VIDEO_FORMAT_ARGB ->
      oformat thiz <> GST_VIDEO_FORMAT_AYUV ->
      gst_alpha_mask_push_frame thiz buffer = ([], GST_FLOW_OK)).
Proof.
  intros Ha converts. subst converts.
  unfold gst_alpha_mask_push_frame, gst_alpha_mask_convert. rewrite Ha.
  split; [|split].
  - intros Hc Hi Ho Hm. rewrite Hi, Ho, Hm. cbn.
    destruct Hc as [-> | [-> | [-> Hg]]]; try done.
    by destruct (iformat thiz).
  - intros Hc Hio.
    assert ((if negb (gst_video_frame_map InFrame buffer) then None
             else if negb (gst_video_frame_map OutFrame buffer) then None
             else if negb (gst_video_frame_map AlphaFrame a)
                  then Some (Converted buffer None)
                  else Some (Converted buffer (Some a))) = None) as Hn.
    { destruct Hio as [-> | ->]; cbn; [done|by destruct (negb _)]. }
    destruct Hc as [-> | [-> | [-> Hg]]]; rewrite ?Hn; try done.
    destruct (iformat thiz); try done; by rewrite Hn.
  - intros H1 H2 H3. by destruct (oformat thiz).
Qed.

(** X20. Unlinking the alpha pad takes the alpha segment out of TIME
    format, and with it the comparison of running times that lets early
    video buffers through: afterwards a video buffer that finds the slot
    empty waits, whatever its time stamp, unless the alpha stream is at
    end-of-stream or segment-done; with nothing else happening it waits for
    ever. *)
Theorem unlinked_alpha_pad_makes_video_wait thiz buffer start stop clip_start :
  let unlinked := (gst_alpha_mask_alpha_pad_unlink thiz).1 in
  video_flushing thiz = false -> video_eos thiz = false ->
  alpha_buffer thiz = None ->
  need_to_wait unlinked buffer
  = negb (alpha_eos thiz || alpha_segment_done thiz)
  /\ (alpha_eos thiz = false -> alpha_segment_done thiz = false ->
      video_chain_from_wait [] unlinked buffer start stop clip_start
      = Stalled [] unlinked).
Proof.
  intros unlinked Hf He Ha.
  assert (need_to_wait unlinked buffer
          = negb (alpha_eos thiz || alpha_segment_done thiz)) as Hw.
  { unfold need_to_wait, unlinked. cbn. by destruct (_ || _). }
  split; [done|]. intros Heos Hdone.
  rewrite Heos, Hdone in Hw.
  cbn [video_chain_from_wait]. unfold video_chain_alone, video_chain_pass.
  assert (video_flushing unlinked = false) as -> by exact Hf.
  assert (video_eos unlinked = false) as -> by exact He.
  assert (alpha_buffer unlinked = None) as -> by exact Ha.
  by rewrite Hw.
Qed.

End Lifecycle.

(** ** The two chains together, on GStreamer's segment functions *)

Section Rendezvous.
#[local] Existing Instance gst_1_0.

Lemma guint64_small x : 0 <= x < 2 ^ 64 -> guint64 x = x.
Proof. intros. unfold guint64. by apply Z.mod_small. Qed.

Lemma clock_time_none_value : GST_CLOCK_TIME_NONE = 18446744073709551615.
Proof. reflexivity. Qed.

(** Decide the comparisons and the wrap-arounds of the goal by linear
    arithmetic. *)
Ltac decide_tests :=
  repeat first
    [ rewrite guint64_small by lia
    | match goal with
      | |- context [?a =? ?b] =>
          first [ replace (a =? b) with true by (symmetry; apply Z.eqb_eq; lia)
                | replace (a =? b) with false
                    by (symmetry; apply Z.eqb_neq; lia) ]
      | |- context [?a <? ?b] =>
          first [ replace (a <? b) with true by (symmetry; apply Z.ltb_lt; lia)
                | replace (a <? b) with false
                    by (symmetry; apply Z.ltb_ge; lia) ]
      | |- context [?a <=? ?b] =>
          first [ replace (a <=? b) with true by (symmetry; apply Z.leb_le; lia)
                | replace (a <=? b) with false
                    by (symmetry; apply Z.leb_gt; lia) ]
      | |- context [Z.max ?a ?b] =>
          first [ rewrite (Z.max_l a b) by lia | rewrite (Z.max_r a b) by lia ]
      end ].

Ltac unfold_chains :=
  unfold gst_alpha_mask_video_chain, gst_alpha_mask_alpha_chain,
    video_chain_from_wait, video_chain_alone, video_chain_pass, need_to_wait,
    alpha_too_old, alpha_in_future, alpha_consumed, alpha_running_time,
    alpha_running_time_end, alpha_end, alpha_start, valid_alpha_time,
    vid_running_time, vid_running_time_end,
    fix_up_stamps, estimate_stop, playing, time_segment, stamped,
    GST_BUFFER_TIMESTAMP_IS_VALID, GST_BUFFER_DURATION_IS_VALID,
    GST_CLOCK_TIME_IS_VALID.

Ltac run_chain :=
  repeat (progress (cbn -[guint64 GST_CLOCK_TIME_NONE Z.add Z.sub Z.mul
                           Z.eqb Z.ltb Z.leb Z.max Z.min Z.pow
                           after_alpha_chain after_alpha_event];
                    decide_tests)).

(** X12. With both segments open ended and starting at [s], a video buffer
    [t, t + d) that finds the slot empty waits; once the alpha chain has
    queued the alpha buffer of the same interval the video chain pushes
    exactly the frame that pairs the two and releases the alpha buffer, and
    it does the same when the alpha buffer was queued before the video
    buffer came.  Afterwards both segments are positioned at [t] and the
    slot is empty. *)
Theorem chains_rendezvous s t d m1 m2 :
  0 <= s <= t -> 0 < d -> t + d < 2 ^ 64 - 1 ->
  let v := stamped t d m1 in
  let a := stamped t d m2 in
  let thiz := playing (time_segment s) (time_segment s) None in
  let final :=
    playing (set_position (time_segment s) t)
      (set_position (time_segment s) t) None in
  after_alpha_chain a thiz
  = playing (time_segment s) (set_position (time_segment s) t) (Some a)
  /\ gst_alpha_mask_video_chain [] thiz v = Stalled [] thiz
  /\ gst_alpha_mask_video_chain [after_alpha_chain a] thiz v
     = Returned GST_FLOW_OK [PadPush (Converted v (Some a)); BufferUnref a]
         final
  /\ gst_alpha_mask_video_chain [] (after_alpha_chain a thiz) v
     = Returned GST_FLOW_OK [PadPush (Converted v (Some a)); BufferUnref a]
         final.
Proof.
  intros Hs Hd Ht. cbv zeta.
  pose proof clock_time_none_value as Hnone.
  assert (after_alpha_chain (stamped t d m2)
            (playing (time_segment s) (time_segment s) None)
          = playing (time_segment s) (set_position (time_segment s) t)
              (Some (stamped t d m2))) as Ealpha.
  { unfold after_alpha_chain. unfold_chains.
    run_chain. by replace (t + d - t) with d by lia. }
  split; [exact Ealpha|].
  split; [unfold_chains; by run_chain|].
  split.
  - unfold gst_alpha_mask_video_chain, video_chain_from_wait,
      video_chain_alone.
    unfold video_chain_pass at 1.
    unfold need_to_wait, fix_up_stamps, estimate_stop,
      GST_BUFFER_TIMESTAMP_IS_VALID, GST_BUFFER_DURATION_IS_VALID,
      GST_CLOCK_TIME_IS_VALID.
    run_chain. rewrite Ealpha. unfold_chains. by run_chain.
  - rewrite Ealpha. unfold_chains. by run_chain.
Qed.

(** X13. With both segments open ended and starting at [s], a gap event on
    the alpha pad that ends after the start of a waiting video buffer lets
    it through as it is; a gap that ends at or before its start leaves it
    waiting. *)
Theorem gap_releases_waiting_video s t d g gd m :
  0 <= s <= t -> 0 < d -> t + d < 2 ^ 64 - 1 ->
  0 <= g -> 0 <= gd -> g + gd < 2 ^ 64 - 1 ->
  let v := stamped t d m in
  let thiz := playing (time_segment s) (time_segment s) None in
  let gap := after_alpha_event (GST_EVENT_GAP g gd) in
  gst_alpha_mask_video_chain [] thiz v = Stalled [] thiz
  /\ gap thiz
     = playing (time_segment s) (set_position (time_segment s) (g + gd)) None
  /\ (t < g + gd ->
      gst_alpha_mask_video_chain [gap] thiz v
      = Returned GST_FLOW_OK [PadPush (Unmodified v)]
          (playing (set_position (time_segment s) t)
             (set_position (time_segment s) (g + gd)) None))
  /\ (g + gd <= t ->
      gst_alpha_mask_video_chain [gap] thiz v = Stalled [] (gap thiz)).
Proof.
  intros Hs Hd Ht Hg Hgd Hge. cbv zeta.
  pose proof clock_time_none_value as Hnone.
  assert (after_alpha_event (GST_EVENT_GAP g gd)
            (playing (time_segment s) (time_segment s) None)
          = playing (time_segment s)
              (set_position (time_segment s) (g + gd)) None) as Egap.
  { unfold after_alpha_event, gst_alpha_mask_alpha_event,
      GST_CLOCK_TIME_IS_VALID.
    run_chain. reflexivity. }
  split; [unfold_chains; by run_chain|].
  split; [exact Egap|].
  split; intros Hcmp.
  - unfold gst_alpha_mask_video_chain, video_chain_from_wait,
      video_chain_alone.
    unfold video_chain_pass at 1.
    unfold need_to_wait, fix_up_stamps, estimate_stop,
      GST_BUFFER_TIMESTAMP_IS_VALID, GST_BUFFER_DURATION_IS_VALID,
      GST_CLOCK_TIME_IS_VALID.
    run_chain. rewrite Egap. unfold_chains. by run_chain.
  - unfold gst_alpha_mask_video_chain, video_chain_from_wait,
      video_chain_alone.
    unfold video_chain_pass at 1.
    unfold need_to_wait, fix_up_stamps, estimate_stop,
      GST_BUFFER_TIMESTAMP_IS_VALID, GST_BUFFER_DURATION_IS_VALID,
      GST_CLOCK_TIME_IS_VALID.
    run_chain. rewrite Egap. unfold_chains.
    destruct (Z.lt_ge_cases (g + gd) s); by run_chain.
Qed.

End Rendezvous.

(** ** The theorems above on concrete frames and buffers *)

Local Close Scope Z_scope.
Local Open Scope N_scope.

Lemma copy_alpha_packed_correct_witness :
  exists out,
    copy_alpha_packed LittleEndian (bytes_of (repeat 7 16)) 8
      (bytes_of [1; 2; 3; 4]) 2 2 2 = Some out
    /\ length out = length (bytes_of (repeat 7 16))
    /\ (forall i j, i < 2 -> j < 2 ->
          load out (i * 8 + 4 * j) = load (bytes_of [1; 2; 3; 4]) (i * 2 + j))
    /\ (forall p, (forall i j, i < 2 -> j < 2 -> p <> i * 8 + 4 * j) ->
                  load out p = load (bytes_of (repeat 7 16)) p).
Proof.
  apply (copy_alpha_packed_correct (bytes_of (repeat 7 16)) 8
           (bytes_of [1; 2; 3; 4]) 2 2 2); by vm_compute.
Defined.

Lemma copy_alpha_packed_ignores_padding_witness :
  copy_alpha_packed LittleEndian (bytes_of (repeat 0 16)) 8
    (bytes_of [1; 2; 9; 3; 4; 9]) 3 2 2
  = copy_alpha_packed LittleEndian (bytes_of (repeat 0 16)) 8
      (bytes_of [1; 2; 7; 3; 4; 7]) 3 2 2.
Proof.
  apply (copy_alpha_packed_ignores_padding (bytes_of (repeat 0 16)) 8
           (bytes_of [1; 2; 9; 3; 4; 9]) (bytes_of [1; 2; 7; 3; 4; 7]) 3 2 2);
    try by vm_compute.
  intros i j Hi Hj.
  assert (i = 0 \/ i = 1) as [-> | ->] by lia;
    assert (j = 0 \/ j = 1) as [-> | ->] by lia; reflexivity.
Defined.

Lemma copy_alpha_packed_in_bounds_witness :
  (2 - 1) * 8 + 4 * (2 - 1) < N.of_nat (length (bytes_of (repeat 0 13)))
  /\ (2 - 1) * 2 + (2 - 1) < N.of_nat (length (bytes_of [1; 2; 3; 4])).
Proof.
  apply (copy_alpha_packed_in_bounds (bytes_of (repeat 0 13)) 8
           (bytes_of [1; 2; 3; 4]) 2 2 2
           (bytes_of [1;0;0;0; 2;0;0;0; 3;0;0;0; 4]));
    by vm_compute.
Defined.

Lemma compositors_on_empty_frames_witness :
  copy_alpha_packed BigEndian (bytes_of [1; 2; 3]) 4 [] 0 0 5
  = Some (bytes_of [1; 2; 3]).
Proof.
  exact (proj1 (compositors_on_empty_frames BigEndian (bytes_of [1; 2; 3])
                  4 [] 0 0 5) (or_introl eq_refl)).
Defined.

Lemma copy_alpha_planar_footprint_witness :
  let dp := bytes_of [0; 8; 8; 0; 8; 8] in
  let out := bytes_of [1; 8; 8; 2; 8; 8] in
  copy_alpha_planar dp 3 (bytes_of [1; 2]) 1 1 2 = Some out
  /\ length out = length dp
  /\ (1 <> 3 ->
      forall p, (forall i j, i < 2 -> j < 1 -> p <> i * 3 + j) ->
                load out p = load dp p)
  /\ (1 = 3 -> forall p, 2 * 1 <= p -> load out p = load dp p).
Proof.
  cbv zeta. split; [reflexivity|].
  apply (copy_alpha_planar_footprint (bytes_of [0; 8; 8; 0; 8; 8]) 3
           (bytes_of [1; 2]) 1 1 2 (bytes_of [1; 8; 8; 2; 8; 8])).
  reflexivity.
Defined.

Lemma copy_alpha_planar_equal_strides_witness :
  exists out,
    copy_alpha_planar (bytes_of (repeat 0 5)) 2 (bytes_of [1; 2; 3; 4]) 2 1 2
    = Some out
    /\ length out = length (bytes_of (repeat 0 5))
    /\ forall p, load out p
                 = if decide (p < 2 * 2) then load (bytes_of [1; 2; 3; 4]) p
                   else load (bytes_of (repeat 0 5)) p.
Proof.
  apply (copy_alpha_planar_equal_strides (bytes_of (repeat 0 5))
           (bytes_of [1; 2; 3; 4]) 2 1 2); by vm_compute.
Defined.

Local Close Scope N_scope.
Local Open Scope Z_scope.

Section MoreWitnesses.
#[local] Existing Instance gst_1_0.
#[local] Existing Instance downstream_any.

Lemma fix_up_stamps_carries_clip_witness :
  let buffer' := fix_up_stamps (stamped 5 20 2) 5 25 10 25 in
  GST_BUFFER_TIMESTAMP buffer' = 10
  /\ buffer_memory buffer' = 2%N
  /\ (25 <> GST_CLOCK_TIME_NONE -> GST_BUFFER_DURATION buffer' = guint64 (25 - 10))
  /\ (25 = GST_CLOCK_TIME_NONE -> GST_BUFFER_DURATION buffer' = 20).
Proof.
  exact (fix_up_stamps_carries_clip (stamped 5 20 2) 10 25
           ltac:(by vm_compute) ltac:(by vm_compute)).
Defined.

Lemma chains_discard_rejected_buffers_witness :
  let b := stamped GST_CLOCK_TIME_NONE (msec 33) 1 in
  let thiz := playing (time_segment 0) (time_segment 0) None in
  gst_alpha_mask_video_chain [] thiz b
  = Returned GST_FLOW_OK [BufferUnref b] thiz.
Proof.
  cbv zeta.
  apply (chains_discard_rejected_buffers []
           (playing (time_segment 0) (time_segment 0) None)
           (stamped GST_CLOCK_TIME_NONE (msec 33) 1)).
  by left.
Defined.

Lemma restart_resets_streams_witness :
  let thiz :=
    playing (time_segment 7) (time_segment 9) (Some (stamped 9 1 1)) in
  (gst_alpha_mask_change_state GST_STATE_CHANGE_SUCCESS
     (gst_alpha_mask_change_state GST_STATE_CHANGE_SUCCESS thiz
        GST_STATE_CHANGE_PAUSED_TO_READY).1.2
     GST_STATE_CHANGE_READY_TO_PAUSED).1.2
  = playing (gst_segment_init GST_FORMAT_TIME)
      (gst_segment_init GST_FORMAT_TIME) None.
Proof.
  cbv zeta.
  exact (restart_resets_streams GST_STATE_CHANGE_SUCCESS
           GST_STATE_CHANGE_SUCCESS
           (playing (time_segment 7) (time_segment 9) (Some (stamped 9 1 1)))
           ltac:(discriminate) ltac:(discriminate)).
Defined.

Lemma event_handlers_keep_to_their_stream_witness :
  let info :=
    {| info_format := GST_VIDEO_FORMAT_I420;
       info_width := 640; info_height := 480;
       info_par_n := 1; info_par_d := 1;
       info_fps_n := 25; info_fps_d := 1 |} in
  let caps :=
    {| gst_caps_is_empty := false; gst_video_info_from_caps := Some info |} in
  let thiz :=
    playing (time_segment 0) (time_segment 0) (Some (stamped 0 (msec 33) 1)) in
  let tv := set_oformat (set_video_info thiz info) GST_VIDEO_FORMAT_A420 in
  gst_alpha_mask_video_event thiz (GST_EVENT_CAPS caps)
  = Some (tv, None, EventTrue)
  /\ alpha_buffer tv = alpha_buffer thiz
  /\ fps_n tv = 25 /\ fps_d tv = 1 /\ iformat tv = GST_VIDEO_FORMAT_I420.
Proof.
  cbv zeta. split; [reflexivity|].
  destruct (event_handlers_keep_to_their_stream
              (playing (time_segment 0) (time_segment 0)
                 (Some (stamped 0 (msec 33) 1)))
              (GST_EVENT_CAPS
                 {| gst_caps_is_empty := false;
                    gst_video_info_from_caps :=
                      Some {| info_format := GST_VIDEO_FORMAT_I420;
                              info_width := 640; info_height := 480;
                              info_par_n := 1; info_par_d := 1;
                              info_fps_n := 25; info_fps_d := 1 |} |}))
    as (_ & Hvideo & _).
  destruct (Hvideo _ _ _ eq_refl) as ((_ & Hslot & _) & _ & Hcaps).
  destruct (Hcaps _ eq_refl) as (_ & _ & _ & _ & Hn & Hd & Hfmt & _).
  split; [exact Hslot|]. split; [exact Hn|]. split; [exact Hd|exact Hfmt].
Defined.

Lemma waiting_video_chain_is_released_witness :
  let v := stamped 0 (msec 33) 2 in
  let thiz := playing (time_segment 0) (time_segment 0) None in
  let wait_through steps :=
    video_chain_from_wait (wake_ups (fun t => t) steps)
      thiz v 0 (msec 33) 0 in
  video_chain_pass thiz v 0 (msec 33) 0 = Block
  /\ wait_through [on_video_pad GST_EVENT_FLUSH_START]
     = Returned GST_FLOW_FLUSHING [BufferUnref v]
         (after_video_event GST_EVENT_FLUSH_START thiz)
  /\ wait_through [on_video_pad GST_EVENT_EOS] = Stalled [] thiz
  /\ wait_through [on_video_pad GST_EVENT_EOS;
                   on_alpha_pad (GST_EVENT_GAP 0 (msec 33))]
     = Returned GST_FLOW_EOS [BufferUnref v]
         (after_alpha_event (GST_EVENT_GAP 0 (msec 33))
            (after_video_event GST_EVENT_EOS thiz)).
Proof.
  cbv zeta. split; [reflexivity|].
  pose proof (waiting_video_chain_is_released
                (playing (time_segment 0) (time_segment 0) None)
                (stamped 0 (msec 33) 2) 0 (msec 33) 0) as Hreleased.
  destruct (Hreleased eq_refl) as (Hflush & Heos & _ & Hlater & _).
  split; [exact (Hflush [])|]. split; [exact Heos|].
  apply (Hlater (GST_EVENT_GAP 0 (msec 33)) []); [reflexivity|discriminate].
Defined.

Lemma alpha_chain_waits_for_slot_witness :
  let held := stamped 0 (msec 33) 1 in
  let b := stamped (msec 33) (msec 33) 2 in
  let thiz := playing (time_segment 0) (time_segment 0) (Some held) in
  let keeps : interference := fun t => t in
  let frees : interference := fun t => set_alpha_buffer t None in
  exists buffer',
    buffer_memory buffer' = buffer_memory b
    /\ gst_alpha_mask_alpha_chain [] thiz b = Stalled [] thiz
    /\ gst_alpha_mask_alpha_chain [keeps] thiz b = Stalled [] thiz
    /\ exists thiz',
         gst_alpha_mask_alpha_chain [keeps; frees] thiz b
         = Returned GST_FLOW_OK [] thiz'
         /\ alpha_buffer thiz' = Some buffer'.
Proof.
  cbv zeta.
  pose proof (alpha_chain_waits_for_slot
                (playing (time_segment 0) (time_segment 0)
                   (Some (stamped 0 (msec 33) 1)))
                (stamped (msec 33) (msec 33) 2) (stamped 0 (msec 33) 1)
                eq_refl eq_refl eq_refl) as Hslot.
  destruct Hslot as (buffer' & Hmem & Hwait & _);
    [intros _; by eexists|].
  exists buffer'. split; [exact Hmem|].
  assert (forall env : list interference,
            env = [] \/ env = [fun t => t] ->
            forall k, (k <= length env)%nat ->
              alpha_buffer
                (after (take k env)
                   (playing (time_segment 0) (time_segment 0)
                      (Some (stamped 0 (msec 33) 1)))) <> None
              /\ alpha_flushing
                   (after (take k env)
                      (playing (time_segment 0) (time_segment 0)
                         (Some (stamped 0 (msec 33) 1)))) = false) as Hheld.
  { intros env [-> | ->] [|[|k]] Hk; cbn in Hk; try lia; by cbn. }
  split; [exact (proj1 (Hwait [] (Hheld [] (or_introl eq_refl))))|].
  destruct (Hwait [fun t => t] (Hheld _ (or_intror eq_refl)))
    as (Hstill & _ & Hfree).
  split; [exact Hstill|].
  destruct (Hfree (fun t => set_alpha_buffer t None) [] eq_refl eq_refl)
    as (thiz' & Hret & Hqueued & _).
  by exists thiz'.
Defined.

Lemma push_frame_degrades_witness :
  let a := stamped 0 (msec 33) 1 in
  let v := stamped 0 (msec 33) 2 in
  let thiz :=
    {| segment := time_segment 0; alpha_segment := time_segment 0;
       alpha_buffer := Some a;
       video_flushing := false; video_eos := false;
       alpha_flushing := false; alpha_eos := false;
       alpha_segment_done := false; fps_n := 30; fps_d := 1;
       iformat := GST_VIDEO_FORMAT_I420;
       oformat := GST_VIDEO_FORMAT_UNKNOWN |} in
  gst_alpha_mask_push_frame thiz v = ([], GST_FLOW_OK).
Proof.
  cbv zeta.
  apply (push_frame_degrades
           {| segment := time_segment 0; alpha_segment := time_segment 0;
              alpha_buffer := Some (stamped 0 (msec 33) 1);
              video_flushing := false; video_eos := false;
              alpha_flushing := false; alpha_eos := false;
              alpha_segment_done := false; fps_n := 30; fps_d := 1;
              iformat := GST_VIDEO_FORMAT_I420;
              oformat := GST_VIDEO_FORMAT_UNKNOWN |}
           (stamped 0 (msec 33) 2) (stamped 0 (msec 33) 1) eq_refl);
    discriminate.
Defined.

Lemma chains_rendezvous_witness :
  let v := stamped (msec 40) (msec 33) 1 in
  let a := stamped (msec 40) (msec 33) 2 in
  let thiz := playing (time_segment 0) (time_segment 0) None in
  gst_alpha_mask_video_chain [after_alpha_chain a] thiz v
  = Returned GST_FLOW_OK [PadPush (Converted v (Some a)); BufferUnref a]
      (playing (set_position (time_segment 0) (msec 40))
         (set_position (time_segment 0) (msec 40)) None).
Proof.
  cbv zeta.
  apply (chains_rendezvous 0 (msec 40) (msec 33) 1 2); by vm_compute.
Defined.

Lemma gap_releases_waiting_video_witness :
  let v := stamped (msec 40) (msec 33) 1 in
  let thiz := playing (time_segment 0) (time_segment 0) None in
  gst_alpha_mask_video_chain
    [after_alpha_event (GST_EVENT_GAP 0 (msec 100))] thiz v
  = Returned GST_FLOW_OK [PadPush (Unmodified v)]
      (playing (set_position (time_segment 0) (msec 40))
         (set_position (time_segment 0) (0 + msec 100)) None).
Proof.
  cbv zeta.
  apply (gap_releases_waiting_video 0 (msec 40) (msec 33) 0 (msec 100) 1);
    by vm_compute.
Defined.

Lemma unlinked_alpha_pad_makes_video_wait_witness :
  let v := stamped 0 (msec 33) 2 in
  let thiz :=
    playing (time_segment 0) (set_position (time_segment 0) (msec 100)) None in
  need_to_wait thiz v = false
  /\ need_to_wait (gst_alpha_mask_alpha_pad_unlink thiz).1 v = true.
Proof.
  cbv zeta. split; [reflexivity|].
  exact (proj1 (unlinked_alpha_pad_makes_video_wait
                  (playing (time_segment 0)
                     (set_position (time_segment 0) (msec 100)) None)
                  (stamped 0 (msec 33) 2) 0 (msec 33) 0
                  eq_refl eq_refl eq_refl)).
Defined.

End MoreWitnesses.
